(** * Dice decathlon policy precomputation

    A shallow embedding of the two dynamic-programming solvers of the
    repository:

    - [src/solvers/decathlon_100m_precompute.cpp], the sprint (100m) solver,
      in [Module Sprint];
    - [src/solvers/longjump_precompute.cpp], the long-jump solver, in
      [Module LongJump].

    C++ [double] is modelled by Rocq's primitive binary64 floats, so every
    definition evaluates to the very bits an IEEE-754 machine produces
    (round-to-nearest-even, no fused multiply-add).  C++ [int] is modelled
    by [Z], without overflow: the model computes what the program does as
    long as every [int] the program computes stays inside the 32-bit range,
    as it does, by far, on the states the drivers enumerate.  For the sums
    of the sprint solver, which take their operands from the fields of an
    arbitrary [State], [Sprint.no_overflow] is that condition and
    [Sprint.total_int] the 32-bit computation itself.  The global memo
    tables are threaded through a state-and-failure monad; recursion is
    bounded by a fuel argument that the totality lemmas show to be
    sufficient. *)

From Stdlib Require Import ZArith List Lia String Floats Bool.
From stdpp Require Import base option list gmap strings.
Import ListNotations.
Local Open Scope Z_scope.

(** ** C++ [double] operations *)

Module Dbl.

(** [double(z)] for an [int] z. *)
Definition of_int (z : Z) : float :=
  if z <? 0 then PrimFloat.opp (PrimFloat.of_uint63 (Uint63.of_Z (- z)))
  else PrimFloat.of_uint63 (Uint63.of_Z z).

(** [std::max(a, b)] is [(a < b) ? b : a]. *)
Definition fmax (a b : float) : float :=
  if PrimFloat.ltb a b then b else a.

(** The literal [1e-12], i.e. the binary64 value nearest to it. *)
Definition tol : float := 0x1.19799812dea11p-40%float.

(** The literal [-1e100]. *)
Definition neg_huge : float := (-0x1.249ad2594c37dp+332)%float.

(** The specification-level floats that are a zero or positive. *)
Definition nonneg_sf (f : spec_float) : Prop :=
  match f with
  | S754_zero _ | S754_infinity false | S754_finite false _ _ => True
  | _ => False
  end.

End Dbl.

(** ** C++ [int] arithmetic, 32 bits in two's complement *)

Module Int32.

Definition min : Z := -2147483648.
Definition max : Z := 2147483647.

Definition in_range (z : Z) : Prop := min <= z <= max.

(** The value a 32-bit register holds after a result [z]. *)
Definition wrap (z : Z) : Z := (z + 2147483648) mod 4294967296 - 2147483648.

Definition add (a b : Z) : Z := wrap (a + b).

End Int32.

(** ** A state monad with failure, for memo tables and fuel *)

Definition M (St A : Type) : Type := St -> option (A * St).

Global Instance M_ret {St : Type} : MRet (M St) :=
  fun A (a : A) st => Some (a, st).

Global Instance M_bind {St : Type} : MBind (M St) :=
  fun A B (k : A -> M St B) (m : M St A) st =>
    match m st with
    | Some (a, st') => k a st'
    | None => None
    end.

Definition out_of_fuel {St A : Type} : M St A := fun _ => None.

(** A [for] loop that collects one result per element. *)
Fixpoint mapM {St A B : Type} (f : A -> M St B) (l : list A) : M St (list B) :=
  match l with
  | [] => mret []
  | x :: l' => y ← f x; ys ← mapM f l'; mret (y :: ys)
  end.

(** A [for] loop that threads an accumulator. *)
Fixpoint foldM {St A B : Type} (f : B -> A -> M St B) (b : B) (l : list A)
  : M St B :=
  match l with
  | [] => mret b
  | x :: l' => b' ← f b x; foldM f b' l'
  end.

(** Total-correctness triples: from every state that satisfies [P] the
    computation returns, with a result and a final state related by [Q]. *)
Definition hoare {St A : Type} (P : St -> Prop) (m : M St A)
    (Q : A -> St -> Prop) : Prop :=
  forall st, P st -> exists a st', m st = Some (a, st') /\ Q a st'.

(** ** Sorting, as [std::sort] and [std::unique] leave their ranges *)

Section Sorting.
Context {A : Type} (leb : A -> A -> bool).

Fixpoint insert_sorted (x : A) (l : list A) : list A :=
  match l with
  | [] => [x]
  | y :: l' => if leb x y then x :: l else y :: insert_sorted x l'
  end.

Definition sort (l : list A) : list A := fold_right insert_sorted [] l.

Context (eqb : A -> A -> bool).

(** [std::unique]: drops each element equal to its predecessor. *)
Fixpoint unique (l : list A) : list A :=
  match l with
  | [] => []
  | x :: l' =>
      match l' with
      | [] => [x]
      | y :: _ => if eqb x y then unique l' else x :: unique l'
      end
  end.
End Sorting.

(** Lexicographic order of [std::array<int,N>]. *)
Fixpoint lex_leb (a b : list Z) : bool :=
match a, b with
| [], _ => true
| _ :: _, [] => false
| x :: a', y :: b' => (x <? y) || ((x =? y) && lex_leb a' b')
end.

Fixpoint list_eqb (a b : list Z) : bool :=
match a, b with
| [], [] => true
| x :: a', y :: b' => (x =? y) && list_eqb a' b'
| _, _ => false
end.

(** * The sprint solver *)

Module Sprint.

Definition SIDES : list Z := [1; 2; 3; 4; 5; 6].

(** [std::array<int,4>] is a list of four integers.  The sum is taken over
    [Z]: it is the [int] of line 10 while no addition overflows. *)
Definition score_set (d : list Z) : Z :=
  fold_left (fun s v => s + (if v =? 6 then -6 else v)) d 0.

Record State : Type := mkState {
  stage : Z;             (* 1 or 2 *)
  rerolls : Z;           (* 0..5 *)
  dice : list Z;         (* sorted *)
  set1_score : Z         (* 7777 as NULL for stage 1 *)
}.

Record Moments : Type := mkMoments { ev : float; ev2 : float }.

Record SolveRes : Type := mkSolveRes {
  best : Moments;
  freeze_m : Moments;
  reroll_m : option Moments;   (* empty if rerolls = 0 *)
  best_action : string         (* "freeze" or "reroll" *)
}.

Global Instance State_eq_dec : EqDecision State.
Proof. solve_decision. Defined.

Global Instance State_countable : Countable State.
Proof.
  refine (inj_countable'
            (fun s => (stage s, rerolls s, dice s, set1_score s))
            (fun t => match t with (a, b, c, d) => mkState a b c d end) _).
  intros []; reflexivity.
Defined.

(** [unordered_map<State,SolveRes,StateHash> memo]. *)
Abbreviation Memo := (gmap State SolveRes).

Definition combine_avg (ms : list Moments) : Moments :=
  let w := (1 / Dbl.of_int (Z.of_nat (length ms)))%float in
  fold_left (fun acc m => mkMoments (ev acc + w * ev m)%float
                                    (ev2 acc + w * ev2 m)%float)
            ms (mkMoments 0 0).

(** [ensure_four_outs]: all 1296 rolls, each sorted, then sorted and
    deduplicated. *)
Definition all_rolls : list (list Z) :=
  a ← SIDES; b ← SIDES; c ← SIDES; d ← SIDES; [sort Z.leb [a; b; c; d]].

Definition ensure_four_outs : list (list Z) :=
  unique list_eqb (sort lex_leb all_rolls).

Definition FOUR_OUTS : list (list Z) := Eval vm_compute in ensure_four_outs.

(** The lambda [sd] of [solve_state] (and of [main]). *)
Definition sd (m : Moments) : float :=
  let var := Dbl.fmax 0 (ev2 m - ev m * ev m)%float in
  PrimFloat.sqrt var.

(** Lines 79-87: choose best by EV, tie -> lower SD -> prefer freeze. *)
Definition choose (freeze_m : Moments) (reroll_m : option Moments) : SolveRes :=
  match reroll_m with
  | Some rm =>
      let sd_f := sd freeze_m in
      let sd_r := sd rm in
      if PrimFloat.ltb (ev freeze_m) (ev rm)
         || (PrimFloat.ltb (PrimFloat.abs (ev rm - ev freeze_m)) Dbl.tol
             && PrimFloat.ltb sd_r sd_f)
      then mkSolveRes rm freeze_m reroll_m "reroll"
      else mkSolveRes freeze_m freeze_m reroll_m "freeze"
  | None => mkSolveRes freeze_m freeze_m reroll_m "freeze"
  end.

(** The terminal freeze: a point distribution at [total], the [int] of
    line 54 while the addition does not overflow. *)
Definition point (total : Z) : Moments :=
  mkMoments (Dbl.of_int total) (Dbl.of_int total * Dbl.of_int total)%float.

(** The child a stage-1 freeze moves to on outcome [r]. *)
Definition freeze_child (s : State) (r : list Z) : State :=
  mkState 2 (rerolls s) (sort Z.leb r) (score_set (dice s)).

(** The child a reroll moves to on outcome [r]. *)
Definition reroll_child (s : State) (r : list Z) : State :=
  mkState (stage s) (rerolls s - 1) (sort Z.leb r) (set1_score s).

(** [memo.emplace(s, res)]: inserts unless the key is present. *)
Definition emplace (s : State) (res : SolveRes) : M Memo unit :=
  fun memo => match memo !! s with
              | Some _ => Some (tt, memo)
              | None => Some (tt, <[s := res]> memo)
              end.

Fixpoint solve_state (fuel : nat) (s : State) : M Memo SolveRes :=
  match fuel with
  | O => out_of_fuel
  | S fuel' => fun memo =>
      match memo !! s with
      | Some r => Some (r, memo)
      | None =>
          (fm ← (if stage s =? 2
                 then mret (point (set1_score s + score_set (dice s)))
                 else kids ← mapM (fun r =>
                                     child ← solve_state fuel' (freeze_child s r);
                                     mret (best child)) FOUR_OUTS;
                      mret (combine_avg kids));
           rm ← (if 0 <? rerolls s
                 then kids ← mapM (fun r =>
                                     child ← solve_state fuel' (reroll_child s r);
                                     mret (best child)) FOUR_OUTS;
                      mret (Some (combine_avg kids))
                 else mret None);
           let res := choose fm rm in
           emplace s res;;
           mret res) memo
      end
  end.

(** [main], lines 118-133: the states the driver enumerates and solves. *)
Definition all_states : list State :=
  (r ← seqZ 0 6; d ← FOUR_OUTS; [mkState 1 r d 7777]) ++
  (r ← seqZ 0 6; d ← FOUR_OUTS; s1 ← seqZ (-24) 45; [mkState 2 r d s1]).

Definition main_solve (fuel : nat) : M Memo unit :=
  mapM (solve_state fuel) all_states;; mret tt.

(** *** The recursion without its memo table

    [solve_val] is [solve_state] with every lookup and insertion of [memo]
    erased; the fuel bounds the depth of the recursion, and [depth s] is
    enough of it. *)
Fixpoint solve_val (fuel : nat) (s : State) : SolveRes :=
  match fuel with
  | O => choose (mkMoments 0 0) None
  | S fuel' =>
      let fm :=
        if stage s =? 2
        then point (set1_score s + score_set (dice s))
        else combine_avg
               (map (fun r => best (solve_val fuel' (freeze_child s r))) FOUR_OUTS) in
      let rm :=
        if 0 <? rerolls s
        then Some (combine_avg
               (map (fun r => best (solve_val fuel' (reroll_child s r))) FOUR_OUTS))
        else None in
      choose fm rm
  end.

Definition depth (s : State) : nat :=
  (2 * Z.to_nat (rerolls s) + (if Z.eqb (stage s) 2 then 1 else 2))%nat.

Definition solve (s : State) : SolveRes := solve_val (depth s) s.

(** The invariant of the memo table: every entry is the value of its key. *)
Definition memo_ok (memo : Memo) : Prop :=
  forall s r, memo !! s = Some r -> r = solve s.

(** [solve_state] returns [r] on [s]: from every consistent memo table and
    with any sufficient fuel. *)
Definition returns (s : State) (r : SolveRes) : Prop :=
  forall fuel memo, memo_ok memo -> (depth s <= fuel)%nat ->
    exists memo', solve_state fuel s memo = Some (r, memo') /\ memo_ok memo'.

(** The states of the event: what [main] enumerates, with any carried
    score at stage 1, where the field is unused. *)
Definition valid_state (s : State) : Prop :=
  0 <= rerolls s <= 5 /\ In (dice s) FOUR_OUTS /\
  (stage s = 1 \/ (stage s = 2 /\ -24 <= set1_score s <= 20)).

Definition more_rerolls (s : State) : State :=
  mkState (stage s) (rerolls s + 1) (dice s) (set1_score s).

(** The memo table [main] ends with. *)
Definition main_memo : Memo :=
  match main_solve 12 ∅ with
  | Some (_, memo) => memo
  | None => ∅
  end.

(** The number of orderings of four dice that sort to [d]. *)
Definition multinomial (d : list Z) : Z :=
  Z.of_nat (length (filter (fun t => list_eqb t d) all_rolls)).

(** The average of the children's moments, each outcome weighted by its
    probability [multinomial / 6^4], accumulated as [combine_avg] does. *)
Definition weighted_avg (kids : list (list Z * Moments)) : Moments :=
  fold_left (fun acc k =>
               let p := (Dbl.of_int (multinomial k.1) / Dbl.of_int 1296)%float in
               mkMoments (ev acc + p * ev k.2)%float (ev2 acc + p * ev2 k.2)%float)
            kids (mkMoments 0 0).

(** *** The solver by layers

    The reroll moments of a state do not depend on its dice, so the values of
    all states with [r] rerolls follow from one average over the states with
    [r - 1]: [reroll2 r c] are the reroll moments of the stage-2 states that
    carry [c], [freeze1 r d] the freeze moments of a stage-1 state and
    [reroll1 r] the reroll moments of the stage-1 states. *)
Definition step2 (c : Z) (prev : option Moments) : option Moments :=
  Some (combine_avg
          (map (fun d => best (choose (point (c + score_set d)) prev)) FOUR_OUTS)).

Fixpoint reroll2 (r : nat) (c : Z) : option Moments :=
  match r with
  | O => None
  | S r' => step2 c (reroll2 r' c)
  end.

Definition solve2 (r : nat) (c : Z) (d : list Z) : SolveRes :=
  choose (point (c + score_set d)) (reroll2 r c).

Definition freeze1 (r : nat) (d : list Z) : Moments :=
  let s1 := score_set d in
  let rm := reroll2 r s1 in
  combine_avg
    (map (fun d' => best (choose (point (s1 + score_set d')) rm)) FOUR_OUTS).

Definition step1 (r : nat) (prev : option Moments) : option Moments :=
  Some (combine_avg
          (map (fun d => best (choose (freeze1 r d) prev)) FOUR_OUTS)).

Fixpoint reroll1 (r : nat) : option Moments :=
  match r with
  | O => None
  | S r' => step1 r' (reroll1 r')
  end.

Definition solve1 (r : nat) (d : list Z) : SolveRes :=
  choose (freeze1 r d) (reroll1 r).

(** The checks behind the monotonicity of the best EV in the reroll budget:
    [n] consecutive budgets, from the reroll moments [cur] of the first. *)
Fixpoint mono2_from (n : nat) (c : Z) (cur : option Moments) : bool :=
  match n with
  | O => true
  | S n' =>
      let nxt := step2 c cur in
      forallb (fun d =>
                 let fm := point (c + score_set d) in
                 PrimFloat.leb (ev (best (choose fm cur)))
                               (ev (best (choose fm nxt)))) FOUR_OUTS
      && mono2_from n' c nxt
  end.

Fixpoint mono1_from (n r : nat) (cur : option Moments) : bool :=
  match n with
  | O => true
  | S n' =>
      let nxt := step1 r cur in
      forallb (fun d =>
                 PrimFloat.leb (ev (best (choose (freeze1 r d) cur)))
                               (ev (best (choose (freeze1 (S r) d) nxt))))
              FOUR_OUTS
      && mono1_from n' (S r) nxt
  end.

(** What a die contributes to the score of its set. *)
Definition die_score (v : Z) : Z := if v =? 6 then -6 else v.

(** *** The sums of lines 10 and 54 as 32-bit [int]s

    [score_set] and the total of line 54 are sums of [int]s.  [score_steps]
    lists the values the variable [s] of [score_set] takes, [score_set_int]
    and [total_int] are the two sums as a 32-bit machine computes them, and
    [no_overflow s] says that the fields of [s] are [int]s and that no
    addition leaves the range, so that the sums over [Z] are the program's. *)
Fixpoint score_steps (acc : Z) (d : list Z) : list Z :=
  match d with
  | [] => []
  | v :: d' => (acc + die_score v) :: score_steps (acc + die_score v) d'
  end.

Definition score_set_int (d : list Z) : Z :=
  fold_left (fun s v => Int32.add s (if v =? 6 then -6 else v)) d 0.

Definition total_int (s : State) : Z :=
  Int32.add (set1_score s) (score_set_int (dice s)).

Definition no_overflow (s : State) : Prop :=
  Forall Int32.in_range (dice s) /\ Int32.in_range (set1_score s) /\
  Forall Int32.in_range (score_steps 0 (dice s)) /\
  Int32.in_range (set1_score s + score_set (dice s)).

(** *** Vocabulary for the properties of the memo table and of the result *)

(** [memo] is consistent, extends [memo0], and every key it has beyond those
    of [memo0] satisfies [P]. *)
Definition grown_from (P : State -> Prop) (memo0 memo : Memo) : Prop :=
  memo_ok memo /\ memo0 ⊆ memo /\
  forall k, is_Some (memo !! k) -> is_Some (memo0 !! k) \/ P k.

(** The states [main] enumerates. *)
Definition enumerated (s : State) : Prop :=
  0 <= rerolls s <= 5 /\ In (dice s) FOUR_OUTS /\
  ((stage s = 1 /\ set1_score s = 7777) \/
   (stage s = 2 /\ -24 <= set1_score s <= 20)).

Definition with_dice (s : State) (d : list Z) : State :=
  mkState (stage s) (rerolls s) d (set1_score s).
Definition with_set1_score (s : State) (c : Z) : State :=
  mkState (stage s) (rerolls s) (dice s) c.
(** The test of lines 84-85. *)
Definition reroll_wins (fm rm : Moments) : bool :=
  PrimFloat.ltb (ev fm) (ev rm)
  || (PrimFloat.ltb (PrimFloat.abs (ev rm - ev fm)) Dbl.tol
      && PrimFloat.ltb (sd rm) (sd fm)).

End Sprint.

(** * The long-jump solver *)

Module LongJump.

(** [struct Counts { int c[7]; }]: slot 0 is unused and zeroed by the
    constructor, slots 1..6 count the dice showing each face. *)
Abbreviation Counts := (list Z).

(** [cnt.c[face]] *)
Definition c_at (cnt : Counts) (face : Z) : Z := nth (Z.to_nat face) cnt 0.

Definition total (cnt : Counts) : Z :=
  fold_left (fun t i => t + c_at cnt i) (seqZ 1 6) 0.

(** [std::map<array<int,6>,double> m] as a list sorted by key;
    [map_add k v m] is [m[k] += v]. *)
Fixpoint map_add (k : list Z) (v : float) (m : list (list Z * float))
  : list (list Z * float) :=
  match m with
  | [] => [(k, (0 + v)%float)]
  | (k', v') :: m' =>
      if list_eqb k k' then (k', (v' + v)%float) :: m'
      else if lex_leb k k' then (k, (0 + v)%float) :: m
      else (k', v') :: map_add k v m'
  end.

(** [a[i]++] on an [array<int,6>]. *)
Fixpoint incr (a : list Z) (i : nat) : list Z :=
  match a, i with
  | [], _ => []
  | x :: a', O => (x + 1) :: a'
  | x :: a', S i' => x :: incr a' i'
  end.

(** The lambda [rec] of [build_outcomes]. *)
Fixpoint rec (total : Z) (left : nat) (a : list Z) (m : list (list Z * float))
  : list (list Z * float) :=
  match left with
  | O => map_add a (1 / Dbl.of_int total)%float m
  | S left' =>
      fold_left (fun m face => rec total left' (incr a (Z.to_nat (face - 1))) m)
                (seqZ 1 6) m
  end.

(** One round of the loop of [build_outcomes]: the vector stored in
    [outcomes_cache[n]]. *)
Definition build_outcomes (n : nat) : list (Counts * float) :=
  let m := rec (6 ^ Z.of_nat n) n [0; 0; 0; 0; 0; 0] [] in
  map (fun kv => (0 :: kv.1, kv.2)) m.

(** [static vector<pair<Counts,double>> outcomes_cache[6]], as
    [build_outcomes] leaves it: slot 0 stays empty. *)
Definition outcomes_table : list (list (Counts * float)) :=
  Eval vm_compute in [] :: map build_outcomes [1; 2; 3; 4; 5]%nat.

Definition outcomes_cache (n : Z) : list (Counts * float) :=
  nth (Z.to_nat n) outcomes_table [].

Record Moments : Type := mkMoments { ev : float; ev2 : float }.

(** The four global tables, and a ghost log of the arguments of every call
    of [solve_runup_pre]. *)
Record Tables : Type := mkTables {
  memo_runup : gmap (Z * Z) Moments;
  memo_jump : gmap Z Moments;
  best_runup_freeze : gmap (Z * list Z) Z;
  best_jump_freeze : gmap (list Z) Z;
  runup_calls : list (Z * Z)
}.

Definition empty_tables : Tables := mkTables ∅ ∅ ∅ ∅ [].

Definition set_memo_jump (n : Z) (m : Moments) : M Tables unit :=
  fun t => Some (tt, mkTables (memo_runup t) (<[n := m]> (memo_jump t))
                              (best_runup_freeze t) (best_jump_freeze t)
                              (runup_calls t)).

Definition set_memo_runup (k : Z * Z) (m : Moments) : M Tables unit :=
  fun t => Some (tt, mkTables (<[k := m]> (memo_runup t)) (memo_jump t)
                              (best_runup_freeze t) (best_jump_freeze t)
                              (runup_calls t)).

Definition set_best_jump (cnt : Counts) (fc : Z) : M Tables unit :=
  fun t => Some (tt, mkTables (memo_runup t) (memo_jump t)
                              (best_runup_freeze t)
                              (<[cnt := fc]> (best_jump_freeze t))
                              (runup_calls t)).

Definition set_best_runup (s : Z) (cnt : Counts) (fc : Z) : M Tables unit :=
  fun t => Some (tt, mkTables (memo_runup t) (memo_jump t)
                              (<[(s, cnt) := fc]> (best_runup_freeze t))
                              (best_jump_freeze t) (runup_calls t)).

Definition log_call (n_rem s : Z) : M Tables unit :=
  fun t => Some (tt, mkTables (memo_runup t) (memo_jump t)
                              (best_runup_freeze t) (best_jump_freeze t)
                              ((n_rem, s) :: runup_calls t)).

(** One round of the loops at lines 96-100 and 125-129. *)
Definition take_step (cnt : Counts) (acc : Z * Z) (face : Z) : Z * Z :=
  let '(frozen_sum, needed) := acc in
  if 0 <? needed
  then let take := Z.min (c_at cnt face) needed in
       (frozen_sum + face * take, needed - take)
  else acc.

(** The sum of the [freeze_count] largest dice. *)
Definition frozen_largest (cnt : Counts) (freeze_count : Z) : Z :=
  fst (fold_left (take_step cnt) [6; 5; 4; 3; 2; 1] (0, freeze_count)).

(** The sum of the [freeze_count] smallest dice. *)
Definition frozen_smallest (cnt : Counts) (freeze_count : Z) : Z :=
  fst (fold_left (take_step cnt) [1; 2; 3; 4; 5; 6] (0, freeze_count)).

(** The running best of the loop over freeze counts. *)
Record Pick : Type := mkPick { best_ev : float; best_ev2 : float; best_fc : Z }.

(** Lines 94-104, given the moments [tail] of the recursive call. *)
Definition jump_step (cnt : Counts) (b : Pick) (freeze_count : Z)
    (tail : Moments) : Pick :=
  let frozen_sum := frozen_largest cnt freeze_count in
  let e := (Dbl.of_int frozen_sum + ev tail)%float in
  let e2 := (Dbl.of_int (frozen_sum * frozen_sum)
             + 2 * Dbl.of_int frozen_sum * ev tail + ev2 tail)%float in
  if PrimFloat.ltb (best_ev b) e then mkPick e e2 freeze_count else b.

(** Line 132. *)
Definition runup_step (b : Pick) (freeze_count : Z) (tail : Moments) : Pick :=
  if PrimFloat.ltb (best_ev b) (ev tail)
  then mkPick (ev tail) (ev2 tail) freeze_count
  else b.

(** Lines 107 and 135: [ev += p*best_ev; ev2 += p*best_ev2]. *)
Definition accumulate (acc : Moments) (p : float) (b : Pick) : Moments :=
  mkMoments (ev acc + p * best_ev b)%float (ev2 acc + p * best_ev2 b)%float.

Fixpoint solve_jump_pre (fuel : nat) (n_rem : Z) : M Tables Moments :=
  match fuel with
  | O => out_of_fuel
  | S fuel' =>
      if n_rem =? 0 then mret (mkMoments 0 0)
      else fun t =>
        match memo_jump t !! n_rem with
        | Some m => Some (m, t)
        | None =>
            (acc ← foldM (fun acc pr =>
                      b ← foldM (fun b freeze_count =>
                             tail ← solve_jump_pre fuel' (n_rem - freeze_count);
                             mret (jump_step pr.1 b freeze_count tail))
                           (mkPick Dbl.neg_huge 0 1) (seqZ 1 n_rem);
                      set_best_jump pr.1 (best_fc b);;
                      mret (accumulate acc pr.2 b))
                   (mkMoments 0 0) (outcomes_cache n_rem);
             set_memo_jump n_rem acc;;
             mret acc) t
        end
  end.

Fixpoint solve_runup_pre (jfuel fuel : nat) (n_rem s : Z) : M Tables Moments :=
  match fuel with
  | O => out_of_fuel
  | S fuel' =>
      log_call n_rem s;;
      if 8 <? s then mret (mkMoments 0 0)
      else fun t =>
        match memo_runup t !! (n_rem, s) with
        | Some m => Some (m, t)
        | None =>
            (let k := 5 - n_rem in
             stopM ← solve_jump_pre jfuel k;
             acc ← foldM (fun acc pr =>
                      b ← foldM (fun b freeze_count =>
                             let frozen_sum := frozen_smallest pr.1 freeze_count in
                             if 8 <? s + frozen_sum then mret b
                             else
                               tail ← solve_runup_pre jfuel fuel'
                                        (n_rem - freeze_count) (s + frozen_sum);
                               mret (runup_step b freeze_count tail))
                           (mkPick (ev stopM) (ev2 stopM) 0) (seqZ 1 n_rem);
                      set_best_runup s pr.1 (best_fc b);;
                      mret (accumulate acc pr.2 b))
                   (mkMoments 0 0) (outcomes_cache n_rem);
             set_memo_runup (n_rem, s) acc;;
             mret acc) t
        end
  end.

(** [main], lines 141-142. *)
Definition main_solve : M Tables Moments := solve_runup_pre 6 6 5 0.

(** Lines 198-199: the SD written to [lj_meta]. *)
Definition attempt_sd (attemptM : Moments) : float :=
  let var := Dbl.fmax 0 (ev2 attemptM - ev attemptM * ev attemptM)%float in
  PrimFloat.sqrt var.

(** *** The recursions without their tables

    [jump_pick] and [runup_pick] are the loops over freeze counts, given the
    values of the recursive calls; [jump_val] and [runup_val] are the two
    solvers with every table access erased. *)
Definition jump_pick (tail : Z -> Moments) (n_rem : Z) (cnt : Counts) : Pick :=
  fold_left (fun b freeze_count =>
               jump_step cnt b freeze_count (tail (n_rem - freeze_count)))
            (seqZ 1 n_rem) (mkPick Dbl.neg_huge 0 1).

Fixpoint jump_val (fuel : nat) (n_rem : Z) : Moments :=
  match fuel with
  | O => mkMoments 0 0
  | S fuel' =>
      if n_rem =? 0 then mkMoments 0 0
      else fold_left (fun acc pr =>
                        accumulate acc pr.2 (jump_pick (jump_val fuel') n_rem pr.1))
                     (outcomes_cache n_rem) (mkMoments 0 0)
  end.

Definition jump (n_rem : Z) : Moments := jump_val (S (Z.to_nat n_rem)) n_rem.

Definition runup_pick (stopM : Moments) (tail : Z -> Z -> Moments)
    (n_rem s : Z) (cnt : Counts) : Pick :=
  fold_left (fun b freeze_count =>
               let frozen_sum := frozen_smallest cnt freeze_count in
               if 8 <? s + frozen_sum then b
               else runup_step b freeze_count
                      (tail (n_rem - freeze_count) (s + frozen_sum)))
            (seqZ 1 n_rem) (mkPick (ev stopM) (ev2 stopM) 0).

Fixpoint runup_val (fuel : nat) (n_rem s : Z) : Moments :=
  match fuel with
  | O => mkMoments 0 0
  | S fuel' =>
      if 8 <? s then mkMoments 0 0
      else fold_left (fun acc pr =>
                        accumulate acc pr.2
                          (runup_pick (jump (5 - n_rem)) (runup_val fuel')
                                      n_rem s pr.1))
                     (outcomes_cache n_rem) (mkMoments 0 0)
  end.

Definition runup (n_rem s : Z) : Moments :=
  runup_val (S (Z.to_nat n_rem)) n_rem s.

(** The moments of the stop action of a run-up state with [n_rem] dice
    still to roll: lines 115-116. *)
Definition stop_moments (n_rem : Z) : Moments := jump (5 - n_rem).

(** The choice of a run-up state on outcome [cnt]. *)
Definition best_runup (n_rem s : Z) (cnt : Counts) : Pick :=
  runup_pick (stop_moments n_rem) runup n_rem s cnt.

(** The freeze counts of a run-up state that the ceiling allows. *)
Definition legal (s : Z) (cnt : Counts) (freeze_count : Z) : bool :=
  negb (8 <? s + frozen_smallest cnt freeze_count).

(** The invariant of the tables. *)
Definition tables_ok (t : Tables) : Prop :=
  (forall n m, memo_jump t !! n = Some m -> m = jump n) /\
  (forall n s m, memo_runup t !! (n, s) = Some m -> m = runup n s) /\
  (forall s cnt fc, best_runup_freeze t !! (s, cnt) = Some fc ->
     s <= 8 /\ exists n, 0 <= n <= 5 /\ In cnt (map fst (outcomes_cache n)) /\
                         fc = best_fc (best_runup n s cnt)) /\
  Forall (fun call : Z * Z => call.2 <= 8) (runup_calls t).

(** The tables [main] ends with. *)
Definition main_tables : Tables :=
  match main_solve empty_tables with
  | Some (_, t) => t
  | None => empty_tables
  end.


(** The binomial coefficient, by Pascal's rule. *)
Fixpoint binomial (n k : nat) : Z :=
  match n, k with
  | _, O => 1
  | O, S _ => 0
  | S n', S k' => binomial n' k' + binomial n' k
  end.

(** *** Vocabulary for the properties of the outcome tables *)

(** [Counts::sum()] *)
Definition sum (cnt : Counts) : Z :=
  fold_left (fun s i => s + i * c_at cnt i) (seqZ 1 6) 0.

(** The dice of [cnt] that show one of [faces], and their sum. *)
Definition dice_on (cnt : Counts) (faces : list Z) : Z :=
  fold_right (fun f t => c_at cnt f + t) 0 faces.
Definition pips_on (cnt : Counts) (faces : list Z) : Z :=
  fold_right (fun f t => f * c_at cnt f + t) 0 faces.

(** [Counts::operator==]: slots 1..6 agree. *)
Definition counts_eqb (a b : Counts) : bool :=
  forallb (fun i => c_at a i =? c_at b i) (seqZ 1 6).

(** A well-formed [Counts]: seven slots, slot 0 zero, no negative count. *)
Definition wf_counts (cnt : Counts) : Prop :=
  length cnt = 7%nat /\ c_at cnt 0 = 0 /\ Forall (fun x => 0 <= x) cnt.

Definition wf_countsb (cnt : Counts) : bool :=
  (length cnt =? 7)%nat && (c_at cnt 0 =? 0) && forallb (fun x => 0 <=? x) cnt.

(** Two to the power -40, about 9.1e-13. *)
Definition prob_tol : float := 0x1p-40%float.

(** The probabilities of a vector of outcomes, added in its order. *)
Definition prob_sum (o : list (Counts * float)) : float :=
  fold_left (fun a pr => (a + pr.2)%float) o 0%float.

(** The check of one outcome vector. *)
Definition outcomes_okb (n : Z) : bool :=
  forallb (fun pr : Counts * float =>
             wf_countsb pr.1 && (total pr.1 =? n) && PrimFloat.ltb 0 pr.2)
          (outcomes_cache n)
  && PrimFloat.ltb (PrimFloat.abs (prob_sum (outcomes_cache n) - 1)) prob_tol.

(** Every recorded jump action freezes at least one die and at most all. *)
Definition jump_entries_ok (t : Tables) : Prop :=
  forall cnt fc, best_jump_freeze t !! cnt = Some fc -> 1 <= fc <= total cnt.

(** No recorded run-up action freezes all the dice of its outcome. *)
Definition runup_entries_short (t : Tables) : bool :=
  forallb (fun e : Z * list Z * Z => e.2 <? total e.1.2)
          (map_to_list (best_runup_freeze t)).

(** The three tables of the run-up are the same in [t'] as in [t]. *)
Definition same_runup_tables (t t' : Tables) : Prop :=
  memo_runup t' = memo_runup t /\
  best_runup_freeze t' = best_runup_freeze t /\
  runup_calls t' = runup_calls t.

(** The tables after [log_call n_rem s]. *)
Definition logged (n_rem s : Z) (t : Tables) : Tables :=
  mkTables (memo_runup t) (memo_jump t) (best_runup_freeze t)
           (best_jump_freeze t) ((n_rem, s) :: runup_calls t).

End LongJump.

(** * Rules for the triples *)

Lemma hoare_ret {St A : Type} (P : St -> Prop) (a : A) (Q : A -> St -> Prop) :
  (forall st, P st -> Q a st) -> hoare P (mret a) Q.
Proof. intros HQ st HP. exists a, st. split; [reflexivity | auto]. Qed.

Lemma hoare_bind {St A B : Type} (P : St -> Prop) (m : M St A)
    (R : A -> St -> Prop) (k : A -> M St B) (Q : B -> St -> Prop) :
  hoare P m R -> (forall a, hoare (R a) (k a) Q) -> hoare P (m ≫= k) Q.
Proof.
  intros Hm Hk st HP.
  destruct (Hm st HP) as (a & st1 & E1 & HR).
  destruct (Hk a st1 HR) as (b & st2 & E2 & HQ).
  exists b, st2. split; [| exact HQ].
  unfold mbind, M_bind. rewrite E1. exact E2.
Qed.

Lemma hoare_conseq {St A : Type} (P P' : St -> Prop) (m : M St A)
    (Q Q' : A -> St -> Prop) :
  hoare P' m Q' -> (forall st, P st -> P' st) ->
  (forall a st, Q' a st -> Q a st) -> hoare P m Q.
Proof.
  intros Hm HP HQ st Hst.
  destruct (Hm st (HP st Hst)) as (a & st' & E & H).
  exists a, st'. auto.
Qed.

(** A fact the precondition carries that does not depend on the state. *)
Lemma hoare_assume {St A : Type} (phi : Prop) (P : St -> Prop) (m : M St A)
    (Q : A -> St -> Prop) :
  (phi -> hoare P m Q) -> hoare (fun st => phi /\ P st) m Q.
Proof. intros H st [Hphi HP]. exact (H Hphi st HP). Qed.

(** A loop whose body computes [g x] on element [x] and keeps [I]. *)
Lemma hoare_mapM {St A B : Type} (I : St -> Prop) (f : A -> M St B)
    (g : A -> B) (l : list A) :
  (forall x, In x l -> hoare I (f x) (fun y st => y = g x /\ I st)) ->
  hoare I (mapM f l) (fun ys st => ys = map g l /\ I st).
Proof.
  induction l as [| x l IH]; intros Hf; simpl.
  - apply hoare_ret. auto.
  - intros st HI.
    destruct (Hf x (or_introl eq_refl) st HI) as (y & st1 & E1 & -> & HI1).
    destruct (IH (fun x' Hx' => Hf x' (or_intror Hx')) st1 HI1)
      as (ys & st2 & E2 & -> & HI2).
    exists (g x :: map g l), st2. split; [| auto].
    unfold mbind, M_bind. rewrite E1, E2. reflexivity.
Qed.

(** A loop whose body steps the accumulator by [g] and keeps [I]. *)
Lemma hoare_foldM {St A B : Type} (I : St -> Prop) (f : B -> A -> M St B)
    (g : B -> A -> B) (l : list A) (b : B) :
  (forall b' x, In x l ->
     hoare I (f b' x) (fun y st => y = g b' x /\ I st)) ->
  hoare I (foldM f b l) (fun r st => r = fold_left g l b /\ I st).
Proof.
  revert b. induction l as [| x l IH]; intros b Hf; simpl.
  - apply hoare_ret. auto.
  - intros st HI.
    destruct (Hf b x (or_introl eq_refl) st HI) as (y & st1 & E1 & -> & HI1).
    destruct (IH (g b x) (fun b' x' Hx' => Hf b' x' (or_intror Hx')) st1 HI1)
      as (r & st2 & E2 & -> & HI2).
    exists (fold_left g l (g b x)), st2. split; [| auto].
    unfold mbind, M_bind. rewrite E1. exact E2.
Qed.

Lemma fold_left_ext_in {A B : Type} (f g : B -> A -> B) (l : list A) (b : B) :
  (forall b' x, In x l -> f b' x = g b' x) -> fold_left f l b = fold_left g l b.
Proof.
  revert b. induction l as [| x l IH]; intros b H; simpl; [reflexivity |].
  rewrite H by now left. apply IH. intros; apply H; now right.
Qed.

Lemma fold_left_invariant {A B : Type} (P : B -> Prop) (f : B -> A -> B)
    (l : list A) (b : B) :
  P b -> (forall b' x, In x l -> P b' -> P (f b' x)) -> P (fold_left f l b).
Proof.
  revert b. induction l as [| x l IH]; intros b Hb Hf; simpl; [exact Hb |].
  apply IH.
  - apply Hf; [now left | exact Hb].
  - intros b' y Hy. apply Hf. now right.
Qed.

Lemma fold_left_skip {A B : Type} (p : A -> bool) (f : B -> A -> B)
    (l : list A) (b : B) :
  fold_left (fun b' x => if p x then f b' x else b') l b
  = fold_left f (List.filter p l) b.
Proof.
  revert b. induction l as [| x l IH]; intros b; simpl; [reflexivity |].
  destruct (p x); simpl; apply IH.
Qed.

Lemma In_seqZ (k m n : Z) : In k (seqZ m n) <-> m <= k < m + n.
Proof. rewrite <- list_elem_of_In. apply elem_of_seqZ. Qed.

(** * The sprint solver: its memo table is transparent *)

Module SprintProofs.
Import Sprint.

Local Opaque FOUR_OUTS.

Lemma depth_freeze_child (s : State) (r : list Z) :
  (stage s =? 2) = false -> (depth (freeze_child s r) < depth s)%nat.
Proof. unfold depth, freeze_child; simpl. intros ->. lia. Qed.

Lemma depth_reroll_child (s : State) (r : list Z) :
  (0 <? rerolls s) = true -> (depth (reroll_child s r) < depth s)%nat.
Proof.
  unfold depth, reroll_child; simpl. intros H%Z.ltb_lt.
  destruct (stage s =? 2); lia.
Qed.

Lemma solve_val_fuel (f1 f2 : nat) (s : State) :
  (depth s <= f1)%nat -> (depth s <= f2)%nat -> solve_val f1 s = solve_val f2 s.
Proof.
  revert f2 s. induction f1 as [| f1 IH]; intros f2 s H1 H2.
  - unfold depth in H1. destruct (stage s =? 2); lia.
  - destruct f2 as [| f2]; [unfold depth in H2; destruct (stage s =? 2); lia |].
    simpl. f_equal.
    + destruct (stage s =? 2) eqn:E; [reflexivity |].
      f_equal. apply map_ext_in. intros r _. f_equal.
      pose proof (depth_freeze_child s r E). apply IH; lia.
    + destruct (0 <? rerolls s) eqn:E; [| reflexivity].
      do 2 f_equal. apply map_ext_in. intros r _. f_equal.
      pose proof (depth_reroll_child s r E). apply IH; lia.
Qed.

Lemma solve_val_enough (fuel : nat) (s : State) :
  (depth s <= fuel)%nat -> solve_val fuel s = solve s.
Proof. intros H. unfold solve. apply solve_val_fuel; lia. Qed.

(** The equation of the recursion. *)
Lemma solve_unfold (s : State) :
  solve s =
  choose (if stage s =? 2
          then point (set1_score s + score_set (dice s))
          else combine_avg (map (fun r => best (solve (freeze_child s r))) FOUR_OUTS))
         (if 0 <? rerolls s
          then Some (combine_avg
                       (map (fun r => best (solve (reroll_child s r))) FOUR_OUTS))
          else None).
Proof.
  unfold solve at 1.
  destruct (depth s) as [| k] eqn:Hk;
    [unfold depth in Hk; destruct (stage s =? 2); lia |].
  simpl. f_equal.
  - destruct (stage s =? 2) eqn:E; [reflexivity |].
    f_equal. apply map_ext_in. intros r _. f_equal.
    pose proof (depth_freeze_child s r E). apply solve_val_enough. lia.
  - destruct (0 <? rerolls s) eqn:E; [| reflexivity].
    do 2 f_equal. apply map_ext_in. intros r _. f_equal.
    pose proof (depth_reroll_child s r E). apply solve_val_enough. lia.
Qed.

Lemma memo_ok_empty : memo_ok ∅.
Proof. intros s r H. rewrite lookup_empty in H. discriminate. Qed.

Lemma memo_ok_insert (memo : Memo) (s : State) :
  memo_ok memo -> memo_ok (<[s := solve s]> memo).
Proof.
  intros Hok s' r H. destruct (decide (s = s')) as [<- | Hne].
  - rewrite lookup_insert_eq in H. congruence.
  - rewrite lookup_insert_ne in H by exact Hne. now apply Hok.
Qed.

Lemma emplace_spec (s : State) :
  hoare memo_ok (emplace s (solve s)) (fun _ memo' => memo_ok memo').
Proof.
  intros memo Hok. unfold emplace. destruct (memo !! s).
  - exists tt, memo. auto.
  - exists tt, (<[s := solve s]> memo). split; [reflexivity |].
    now apply memo_ok_insert.
Qed.

(** The memoized solver returns the value of the recursion and keeps the
    table consistent. *)
Lemma solve_state_spec (fuel : nat) (s : State) :
  (depth s <= fuel)%nat ->
  hoare memo_ok (solve_state fuel s) (fun r memo' => r = solve s /\ memo_ok memo').
Proof.
  revert s. induction fuel as [| fuel IH]; intros s Hd.
  - unfold depth in Hd. destruct (stage s =? 2); lia.
  - intros memo Hok. simpl. destruct (memo !! s) as [r |] eqn:E.
    + exists r, memo. split; [reflexivity |]. split; [now apply Hok | exact Hok].
    + clear E. revert memo Hok.
      change (hoare memo_ok
        (fm ← (if stage s =? 2
               then mret (point (set1_score s + score_set (dice s)))
               else kids ← mapM (fun r =>
                                   child ← solve_state fuel (freeze_child s r);
                                   mret (best child)) FOUR_OUTS;
                    mret (combine_avg kids));
         rm ← (if 0 <? rerolls s
               then kids ← mapM (fun r =>
                                   child ← solve_state fuel (reroll_child s r);
                                   mret (best child)) FOUR_OUTS;
                    mret (Some (combine_avg kids))
               else mret None);
         emplace s (choose fm rm);; mret (choose fm rm))
        (fun r memo' => r = solve s /\ memo_ok memo')).
      eapply hoare_bind with
        (R := fun fm memo' =>
                fm = (if stage s =? 2
                      then point (set1_score s + score_set (dice s))
                      else combine_avg
                             (map (fun r => best (solve (freeze_child s r))) FOUR_OUTS))
                /\ memo_ok memo').
      { destruct (stage s =? 2) eqn:E.
        - apply hoare_ret. auto.
        - eapply hoare_bind.
          + apply hoare_mapM with (g := fun r => best (solve (freeze_child s r))).
            intros r _. eapply hoare_bind.
            * apply IH. pose proof (depth_freeze_child s r E). lia.
            * intros child. apply hoare_ret. intros st [-> H]. auto.
          + intros kids. apply hoare_ret. intros st [-> H]. auto. }
      intros fm. apply hoare_assume. intros ->.
      eapply hoare_bind with
        (R := fun rm memo' =>
                rm = (if 0 <? rerolls s
                      then Some (combine_avg
                             (map (fun r => best (solve (reroll_child s r))) FOUR_OUTS))
                      else None)
                /\ memo_ok memo').
      { destruct (0 <? rerolls s) eqn:E.
        - eapply hoare_bind.
          + apply hoare_mapM with (g := fun r => best (solve (reroll_child s r))).
            intros r _. eapply hoare_bind.
            * apply IH. pose proof (depth_reroll_child s r E). lia.
            * intros child. apply hoare_ret. intros st [-> H]. auto.
          + intros kids. apply hoare_ret. intros st [-> H]. auto.
        - apply hoare_ret. auto. }
      intros rm. apply hoare_assume. intros ->.
      rewrite <- (solve_unfold s).
      eapply hoare_bind; [apply emplace_spec |].
      intros u. apply hoare_ret. auto.
Qed.

(** [solve_state] returns [solve s] on [s]. *)
Lemma solve_returns (s : State) : returns s (solve s).
Proof.
  intros fuel memo Hok Hd.
  destruct (solve_state_spec fuel s Hd memo Hok) as (r & memo' & E & -> & Hok').
  exists memo'. auto.
Qed.

Lemma returns_unique (s : State) (r : SolveRes) : returns s r -> r = solve s.
Proof.
  intros H. destruct (H (depth s) ∅ memo_ok_empty (le_n _)) as (m1 & E1 & _).
  destruct (solve_returns s (depth s) ∅ memo_ok_empty (le_n _)) as (m2 & E2 & _).
  congruence.
Qed.

Lemma solve_val_stage1 (fuel : nat) (s : State) (c : Z) :
  (stage s =? 2) = false ->
  solve_val fuel s = solve_val fuel (mkState (stage s) (rerolls s) (dice s) c).
Proof.
  revert s. induction fuel as [| fuel IH]; intros s E; [reflexivity |].
  simpl. rewrite E. f_equal.
  destruct (0 <? rerolls s); [| reflexivity].
  do 2 f_equal. apply map_ext_in. intros r _. f_equal.
  exact (IH (reroll_child s r) E).
Qed.

(** At stage 1 the carried score is unused. *)
Lemma solve_stage1 (s : State) (c : Z) :
  stage s = 1 -> solve s = solve (mkState (stage s) (rerolls s) (dice s) c).
Proof.
  intros H. unfold solve. rewrite (solve_val_stage1 _ s c) by now rewrite H.
  reflexivity.
Qed.

Lemma all_states_rerolls (s : State) : In s all_states -> 0 <= rerolls s <= 5.
Proof.
  unfold all_states. intros [H | H]%in_app_or;
    apply list_elem_of_In, list_elem_of_bind in H;
    destruct H as (r & H & Hr%elem_of_seqZ);
    apply list_elem_of_bind in H; destruct H as (d & H & _).
  - apply list_elem_of_singleton in H. subst. simpl. lia.
  - apply list_elem_of_bind in H. destruct H as (c & H & _).
    apply list_elem_of_singleton in H. subst. simpl. lia.
Qed.

Lemma all_states_depth (s : State) : In s all_states -> (depth s <= 12)%nat.
Proof.
  intros H%all_states_rerolls. unfold depth. destruct (stage s =? 2); lia.
Qed.

Lemma main_solve_spec :
  hoare memo_ok (main_solve 12) (fun _ memo' => memo_ok memo').
Proof.
  unfold main_solve. eapply hoare_bind.
  - apply hoare_mapM with (g := solve). intros s Hs.
    apply solve_state_spec. now apply all_states_depth.
  - intros rs. apply hoare_ret. intros st [_ H]. exact H.
Qed.

Lemma main_memo_ok : memo_ok main_memo.
Proof.
  destruct (main_solve_spec ∅ memo_ok_empty) as ([] & memo' & E & H).
  unfold main_memo. rewrite E. exact H.
Qed.

Lemma all_states_stage1 (r : Z) (d : list Z) :
  0 <= r <= 5 -> In d FOUR_OUTS -> In (mkState 1 r d 7777) all_states.
Proof.
  intros Hr Hd. unfold all_states. apply in_or_app. left.
  apply list_elem_of_In, list_elem_of_bind. exists r. split.
  - apply list_elem_of_bind. exists d. split; [apply list_elem_of_singleton; reflexivity |].
    now apply list_elem_of_In.
  - apply elem_of_seqZ. lia.
Qed.

Lemma all_states_stage2 (r : Z) (d : list Z) (c : Z) :
  0 <= r <= 5 -> In d FOUR_OUTS -> -24 <= c <= 20 ->
  In (mkState 2 r d c) all_states.
Proof.
  intros Hr Hd Hc. unfold all_states. apply in_or_app. right.
  apply list_elem_of_In, list_elem_of_bind. exists r. split.
  - apply list_elem_of_bind. exists d. split.
    + apply list_elem_of_bind. exists c. split; [apply list_elem_of_singleton; reflexivity |].
      apply elem_of_seqZ. lia.
    + now apply list_elem_of_In.
  - apply elem_of_seqZ. lia.
Qed.

(** The outcomes of [FOUR_OUTS] are sorted: sorting them again, as the loops
    of [solve_state] do, changes nothing. *)
Lemma FOUR_OUTS_sorted (d : list Z) : In d FOUR_OUTS -> sort Z.leb d = d.
Proof.
  assert (H : forallb (fun d => list_eqb (sort Z.leb d) d) FOUR_OUTS = true)
    by (vm_compute; reflexivity).
  rewrite forallb_forall in H. intros Hd. specialize (H d Hd).
  revert H. generalize (sort Z.leb d). clear Hd.
  induction d as [| x d IH]; intros [| y l]; simpl; try discriminate; auto.
  intros [->%Z.eqb_eq H]%andb_true_iff. f_equal. apply IH. exact H.
Qed.

(** The layers are the values of the recursion. *)
Lemma solve_stage2_layers (r : nat) (c : Z) (d : list Z) :
  solve (mkState 2 (Z.of_nat r) d c) = solve2 r c d.
Proof.
  revert d. induction r as [| r IH]; intros d; rewrite solve_unfold; simpl stage;
    cbv beta iota; change (2 =? 2) with true; cbv iota.
  - reflexivity.
  - unfold solve2. f_equal. simpl rerolls.
    replace (0 <? Z.of_nat (S r)) with true by (symmetry; apply Z.ltb_lt; lia).
    simpl reroll2. unfold step2. do 2 f_equal.
    apply map_ext_in. intros x Hx. unfold reroll_child. simpl.
    rewrite (FOUR_OUTS_sorted x Hx).
    replace (Z.of_nat (S r) - 1) with (Z.of_nat r) by lia.
    rewrite IH. reflexivity.
Qed.

Lemma solve_stage1_layers (r : nat) (c : Z) (d : list Z) :
  solve (mkState 1 (Z.of_nat r) d c) = solve1 r d.
Proof.
  assert (Hf : forall r d c,
             combine_avg (map (fun x => best (solve (freeze_child
                                  (mkState 1 (Z.of_nat r) d c) x))) FOUR_OUTS)
             = freeze1 r d).
  { intros r0 d0 c0. unfold freeze1. f_equal. apply map_ext_in. intros x Hx.
    unfold freeze_child. simpl. rewrite (FOUR_OUTS_sorted x Hx).
    rewrite solve_stage2_layers. reflexivity. }
  revert d. induction r as [| r IH]; intros d; rewrite solve_unfold; simpl stage;
    cbv beta iota; change (1 =? 2) with false; cbv iota; rewrite Hf.
  - reflexivity.
  - unfold solve1. f_equal. simpl rerolls.
    replace (0 <? Z.of_nat (S r)) with true by (symmetry; apply Z.ltb_lt; lia).
    simpl reroll1. unfold step1. do 2 f_equal.
    apply map_ext_in. intros x Hx. unfold reroll_child. simpl.
    rewrite (FOUR_OUTS_sorted x Hx).
    replace (Z.of_nat (S r) - 1) with (Z.of_nat r) by lia.
    rewrite IH. reflexivity.
Qed.

Lemma mono2_from_ok (n r : nat) (c : Z) :
  mono2_from n c (reroll2 r c) = true ->
  forall k d, (k < n)%nat -> In d FOUR_OUTS ->
    PrimFloat.leb (ev (best (solve2 (r + k) c d)))
                  (ev (best (solve2 (S (r + k)) c d))) = true.
Proof.
  revert r. induction n as [| n IH]; intros r H k d Hk Hd; [lia |].
  simpl in H. apply andb_true_iff in H. destruct H as [H1 H2].
  destruct k as [| k].
  - rewrite forallb_forall in H1. rewrite Nat.add_0_r. exact (H1 d Hd).
  - replace (r + S k)%nat with (S r + k)%nat by lia.
    apply (IH (S r)); [exact H2 | lia | exact Hd].
Qed.

Lemma mono1_from_ok (n r : nat) :
  mono1_from n r (reroll1 r) = true ->
  forall k d, (k < n)%nat -> In d FOUR_OUTS ->
    PrimFloat.leb (ev (best (solve1 (r + k) d)))
                  (ev (best (solve1 (S (r + k)) d))) = true.
Proof.
  revert r. induction n as [| n IH]; intros r H k d Hk Hd; [lia |].
  simpl in H. apply andb_true_iff in H. destruct H as [H1 H2].
  destruct k as [| k].
  - rewrite forallb_forall in H1. rewrite Nat.add_0_r. exact (H1 d Hd).
  - replace (r + S k)%nat with (S r + k)%nat by lia.
    apply (IH (S r)); [exact H2 | lia | exact Hd].
Qed.

Lemma mono2_checked :
  forallb (fun c => mono2_from 5 c None) (seqZ (-24) 45) = true.
Proof. vm_compute. reflexivity. Qed.

Lemma mono1_checked : mono1_from 5 0 None = true.
Proof. vm_compute. reflexivity. Qed.

(** On the states of the event, one more reroll never lowers the best EV. *)
Lemma layers_mono (s : State) :
  valid_state s -> rerolls s < 5 ->
  PrimFloat.leb (ev (best (solve s))) (ev (best (solve (more_rerolls s)))) = true.
Proof.
  intros (Hr & Hd & Hst) Hlt. destruct s as [st r d c]; simpl in *.
  unfold more_rerolls; simpl.
  replace r with (Z.of_nat (Z.to_nat r)) by lia.
  replace (Z.of_nat (Z.to_nat r) + 1) with (Z.of_nat (S (Z.to_nat r))) by lia.
  destruct Hst as [-> | [-> Hc]].
  - rewrite !solve_stage1_layers.
    apply (mono1_from_ok 5 0 mono1_checked (Z.to_nat r) d); [lia | exact Hd].
  - rewrite !solve_stage2_layers.
    pose proof mono2_checked as H. rewrite forallb_forall in H.
    apply (mono2_from_ok 5 0 c (H c ltac:(apply In_seqZ; lia)) (Z.to_nat r) d);
      [lia | exact Hd].
Qed.

Lemma score_set_four (a b c d : Z) :
  score_set [a; b; c; d] = die_score a + die_score b + die_score c + die_score d.
Proof. unfold score_set, die_score. simpl. lia. Qed.

Lemma solve_freeze_stage2 (s : State) :
  stage s = 2 -> freeze_m (solve s) = point (set1_score s + score_set (dice s)).
Proof.
  intros H. rewrite solve_unfold, H. simpl.
  unfold choose. destruct (0 <? rerolls s); [| reflexivity].
  match goal with |- context [if ?b then _ else _] => destruct b end; reflexivity.
Qed.

(** Squaring the double of a total of two set scores is exact. *)
Lemma square_exact :
  Forall (fun t => (Dbl.of_int t * Dbl.of_int t)%float = Dbl.of_int (t * t))
         (seqZ (-48) 89).
Proof. vm_compute. repeat constructor. Qed.

Lemma reroll_is_uniform_average (s : State) :
  0 < rerolls s ->
  reroll_m (solve s) =
  Some (combine_avg (map (fun r => best (solve (reroll_child s r))) FOUR_OUTS)).
Proof.
  intros H. apply Z.ltb_lt in H. rewrite solve_unfold, H.
  unfold choose.
  match goal with |- context [if ?b then _ else _] => destruct b end; reflexivity.
Qed.

(** ** The claims about the sprint solver *)

(** C1 (the code departs from the claim).  [solve_state] on the state
    stage 2, two rerolls left, dice 1 1 1 1, carried score 0: its reroll
    moments are [combine_avg] of the 126 children, each weighted 1/126,
    although 1 2 3 4 has 24 orderings and 1 1 1 1 has one; the average of the
    same children weighted by multinomial/1296 has an EV below 9, the
    solver's is above 9.25. *)
Theorem C1_reroll_average_ignores_multiplicity :
  let s := mkState 2 2 [1; 1; 1; 1] 0 in
  let kids := map (fun r => (r, best (solve (reroll_child s r)))) FOUR_OUTS in
  returns s (solve s) /\
  reroll_m (solve s) = Some (combine_avg (map snd kids)) /\
  multinomial [1; 2; 3; 4] = 24 /\ multinomial [1; 1; 1; 1] = 1 /\
  PrimFloat.ltb 9.25 (ev (combine_avg (map snd kids))) = true /\
  PrimFloat.ltb (ev (weighted_avg kids)) 9 = true.
Proof.
  intros s kids. split; [apply solve_returns |].
  split; [| vm_compute; auto].
  unfold kids. rewrite map_map. apply reroll_is_uniform_average.
  unfold s. simpl. lia.
Qed.

(** While no addition overflows, the 32-bit sums are the sums over [Z]. *)
Lemma wrap_in_range (z : Z) : Int32.in_range z -> Int32.wrap z = z.
Proof.
  unfold Int32.in_range, Int32.wrap, Int32.min, Int32.max. intros H.
  rewrite Z.mod_small by lia. lia.
Qed.

Lemma score_set_int_steps (d : list Z) (acc : Z) :
  Forall Int32.in_range (score_steps acc d) ->
  fold_left (fun s v => Int32.add s (if v =? 6 then -6 else v)) d acc
  = fold_left (fun s v => s + (if v =? 6 then -6 else v)) d acc.
Proof.
  revert acc. induction d as [| v d IH]; intros acc H; [reflexivity |].
  apply List.Forall_cons_iff in H. destruct H as [H1 H2].
  cbn [fold_left]. unfold Int32.add at 2.
  change (if v =? 6 then -6 else v) with (die_score v).
  rewrite (wrap_in_range _ H1). apply IH. exact H2.
Qed.

Lemma total_int_exact (s : State) :
  no_overflow s -> total_int s = set1_score s + score_set (dice s).
Proof.
  intros (_ & _ & Hsteps & Htot). unfold total_int, score_set_int.
  rewrite (score_set_int_steps _ _ Hsteps). fold (score_set (dice s)).
  unfold Int32.add. apply wrap_in_range. exact Htot.
Qed.

(** C4.  On every stage-2 state whose sums stay within the range of [int]
    [solve_state] returns freeze moments that are the point distribution at
    total = carried score + score of the set, the very value the 32-bit
    additions of lines 10 and 54 give: EV the double of the total, second
    moment the product of that double with itself, which is the double of
    the square for every total two set scores can give; a die showing 6
    scores -6, any other its face, so 6 6 5 5 scores -2. *)
Theorem C4_stage2_freeze_is_point (s : State) :
  stage s = 2 -> no_overflow s ->
  exists r total,
    returns s r /\
    total = set1_score s + score_set (dice s) /\
    total = total_int s /\ Int32.in_range total /\
    freeze_m r = point total /\
    ev (freeze_m r) = Dbl.of_int total /\
    ev2 (freeze_m r) = (Dbl.of_int total * Dbl.of_int total)%float /\
    (-48 <= total <= 40 -> ev2 (freeze_m r) = Dbl.of_int (total * total)) /\
    (forall a b c d, dice s = [a; b; c; d] ->
       score_set (dice s) = die_score a + die_score b + die_score c + die_score d) /\
    die_score 6 = -6 /\ score_set [6; 6; 5; 5] = -2.
Proof.
  intros H Hno. exists (solve s), (set1_score s + score_set (dice s)).
  split; [apply solve_returns |]. split; [reflexivity |].
  split; [symmetry; now apply total_int_exact |].
  split; [exact (proj2 (proj2 (proj2 Hno))) |].
  rewrite (solve_freeze_stage2 s H). repeat split.
  - intros Ht. simpl.
    pose proof square_exact as Hsq. rewrite Forall_forall in Hsq.
    apply Hsq, elem_of_seqZ. lia.
  - intros a b c d ->. apply score_set_four.
Qed.

Lemma C4_stage2_freeze_is_point_witness :
  exists r total,
    returns (mkState 2 0 [5; 5; 6; 6] 4) r /\
    total = 4 + score_set [5; 5; 6; 6] /\
    total = total_int (mkState 2 0 [5; 5; 6; 6] 4) /\ Int32.in_range total /\
    freeze_m r = point total /\
    ev (freeze_m r) = Dbl.of_int total /\
    ev2 (freeze_m r) = (Dbl.of_int total * Dbl.of_int total)%float /\
    (-48 <= total <= 40 -> ev2 (freeze_m r) = Dbl.of_int (total * total)) /\
    (forall a b c d, [5; 5; 6; 6] = [a; b; c; d] ->
       score_set [5; 5; 6; 6] = die_score a + die_score b + die_score c + die_score d) /\
    die_score 6 = -6 /\ score_set [6; 6; 5; 5] = -2.
Proof.
  apply (C4_stage2_freeze_is_point (mkState 2 0 [5; 5; 6; 6] 4)).
  - reflexivity.
  - unfold no_overflow, Int32.in_range, Int32.min, Int32.max, score_set.
    simpl. unfold die_score. simpl. split; [| split; [| split]]; try lia;
      repeat (apply List.Forall_cons; [lia |]); apply List.Forall_nil.
Defined.

(** C5 (the code departs from the claim).  [solve_state] on the state
    stage 2, one reroll left, dice 1 1 1 3, carried score -3: freeze has
    moments (3, 9), the reroll EV exceeds 3 by less than the tolerance
    1e-12, freeze has the strictly lower SD, and the action chosen is
    reroll. *)
Theorem C5_near_tie_goes_to_reroll :
  let s := mkState 2 1 [1; 1; 1; 3] (-3) in
  exists rm,
    returns s (solve s) /\
    freeze_m (solve s) = point 3 /\
    reroll_m (solve s) = Some rm /\
    PrimFloat.ltb (PrimFloat.abs (ev rm - ev (point 3))) Dbl.tol = true /\
    PrimFloat.ltb (sd (point 3)) (sd rm) = true /\
    PrimFloat.ltb (ev (point 3)) (ev rm) = true /\
    best_action (solve s) = "reroll"%string.
Proof.
  intros s.
  exists (match reroll_m (solve s) with Some rm => rm | None => mkMoments 0 0 end).
  split; [apply solve_returns |].
  vm_compute. auto 10.
Qed.

(** C6.  For every state of the event with fewer than five rerolls left
    (either stage, any of the 126 sorted dice, any carried score a set can
    give), the best EV [solve_state] returns with one more reroll is not
    below the best EV it returns on the state itself. *)
Theorem C6_more_rerolls_never_lower_best_ev (s : State) :
  valid_state s -> rerolls s < 5 ->
  exists r1 r2,
    returns s r1 /\ returns (more_rerolls s) r2 /\
    PrimFloat.leb (ev (best r1)) (ev (best r2)) = true.
Proof.
  intros Hv Hlt.
  exists (solve s), (solve (more_rerolls s)).
  split; [apply solve_returns |]. split; [apply solve_returns |].
  now apply layers_mono.
Qed.

Lemma C6_more_rerolls_never_lower_best_ev_witness :
  exists r1 r2,
    returns (mkState 2 1 [1; 1; 1; 3] (-3)) r1 /\
    returns (more_rerolls (mkState 2 1 [1; 1; 1; 3] (-3))) r2 /\
    PrimFloat.leb (ev (best r1)) (ev (best r2)) = true.
Proof.
  apply (C6_more_rerolls_never_lower_best_ev (mkState 2 1 [1; 1; 1; 3] (-3))).
  - split; [simpl; lia |].
    split; [vm_compute; tauto | right; simpl; lia].
  - simpl. lia.
Defined.

End SprintProofs.

(** * Square roots of clamped variances *)

Module FloatProofs.
Import Dbl.

Lemma shr_1_nonneg (mrs : shr_record) :
  0 <= shr_m mrs -> 0 <= shr_m (shr_1 mrs).
Proof.
  destruct mrs as [m r s]. simpl.
  destruct m as [| p | p]; [| destruct p | destruct p]; simpl; lia.
Qed.

Lemma iter_shr_1_nonneg (p : positive) (mrs : shr_record) :
  0 <= shr_m mrs -> 0 <= shr_m (SpecFloat.iter_pos shr_1 p mrs).
Proof.
  revert mrs. induction p as [p IH | p IH |]; intros mrs H; simpl.
  - apply IH, IH, shr_1_nonneg, H.
  - apply IH, IH, H.
  - apply shr_1_nonneg, H.
Qed.

Lemma shr_fexp_nonneg (m e : Z) (l : location) :
  0 <= m -> 0 <= shr_m (fst (shr_fexp prec emax m e l)).
Proof.
  intros H. unfold shr_fexp, shr.
  assert (H0 : 0 <= shr_m (shr_record_of_loc m l))
    by (destruct l as [| []]; exact H).
  destruct (fexp prec emax (Zdigits2 m + e) - e); simpl;
    [exact H0 | apply iter_shr_1_nonneg, H0 | exact H0].
Qed.

Lemma round_nearest_even_nonneg (m : Z) (l : location) :
  0 <= m -> 0 <= round_nearest_even m l.
Proof.
  intros H. unfold round_nearest_even.
  destruct l as [| []]; [| destruct (Z.even m) | |]; lia.
Qed.

Lemma binary_round_aux_nonneg (mx ex : Z) (lx : location) :
  0 <= mx -> nonneg_sf (binary_round_aux prec emax false mx ex lx).
Proof.
  intros H. unfold binary_round_aux.
  pose proof (shr_fexp_nonneg mx ex lx H) as H1.
  destruct (shr_fexp prec emax mx ex lx) as [mrs' e']. simpl in H1.
  pose proof (shr_fexp_nonneg _ e' loc_Exact
                (round_nearest_even_nonneg _ (loc_of_shr_record mrs') H1)) as H2.
  destruct (shr_fexp prec emax _ e' loc_Exact) as [mrs'' e'']. simpl in H2.
  destruct (shr_m mrs''); simpl; [exact I | | lia].
  destruct (e'' <=? emax - prec); exact I.
Qed.

Lemma SFsqrt_nonneg (f : spec_float) :
  SFltb (S754_zero false) f = true -> nonneg_sf (SF64sqrt f).
Proof.
  destruct f as [s | [] | | [] m e]; simpl; try discriminate; auto.
  intros _.
  destruct (SFsqrt_core_binary prec emax (Z.pos m) e) as [[mz ez] lz] eqn:E.
  apply binary_round_aux_nonneg.
  unfold SFsqrt_core_binary in E.
  match type of E with
  | (let (q, r) := Z.sqrtrem ?m' in _) = _ =>
      pose proof (Z.sqrtrem_sqrt m') as Hq; destruct (Z.sqrtrem m') as [q r]
  end.
  inversion E; subst. simpl in Hq. rewrite Hq. apply Z.sqrt_nonneg.
Qed.

Lemma nonneg_sf_not_nan (x : float) :
  nonneg_sf (Prim2SF x) ->
  PrimFloat.is_nan x = false /\ PrimFloat.leb 0 x = true.
Proof.
  intros H. unfold PrimFloat.is_nan.
  rewrite FloatAxioms.eqb_spec, FloatAxioms.leb_spec.
  change (Prim2SF 0) with (S754_zero false).
  destruct (Prim2SF x) as [s | [] | | [] m e]; simpl in *; try contradiction;
    try (split; reflexivity).
  unfold SFeqb, SFcompare. rewrite Z.compare_refl.
  change (Pos.compare_cont Eq m m) with (Pos.compare m m).
  rewrite Pos.compare_refl. split; reflexivity.
Qed.

(** The square root of a variance clamped by [std::max(0.0, .)] is a
    number, and not negative. *)
Lemma sqrt_fmax_ok (x : float) :
  PrimFloat.is_nan (PrimFloat.sqrt (Dbl.fmax 0 x)) = false /\
  PrimFloat.leb 0 (PrimFloat.sqrt (Dbl.fmax 0 x)) = true.
Proof.
  unfold Dbl.fmax. destruct (PrimFloat.ltb 0 x) eqn:E.
  - apply nonneg_sf_not_nan. rewrite FloatAxioms.sqrt_spec. apply SFsqrt_nonneg.
    rewrite FloatAxioms.ltb_spec in E. exact E.
  - vm_compute. split; reflexivity.
Qed.

(** C7.  In both solvers the standard deviation of a moments pair is
    the square root of [std::max(0.0, ev2 - ev*ev)]; whatever the two
    doubles are (infinities and NaN included) it is not NaN and it is not
    below zero, since the clamp returns 0.0 unless the difference is
    strictly positive. *)
Theorem C7_sd_is_clamped_sqrt :
  (forall m : Sprint.Moments,
     Sprint.sd m =
       PrimFloat.sqrt (Dbl.fmax 0 (Sprint.ev2 m - Sprint.ev m * Sprint.ev m)) /\
     PrimFloat.is_nan (Sprint.sd m) = false /\
     PrimFloat.leb 0 (Sprint.sd m) = true) /\
  (forall m : LongJump.Moments,
     LongJump.attempt_sd m =
       PrimFloat.sqrt
         (Dbl.fmax 0 (LongJump.ev2 m - LongJump.ev m * LongJump.ev m)) /\
     PrimFloat.is_nan (LongJump.attempt_sd m) = false /\
     PrimFloat.leb 0 (LongJump.attempt_sd m) = true) /\
  (forall x : float,
     PrimFloat.ltb 0 x = false -> Dbl.fmax 0 x = 0%float).
Proof.
  split; [| split].
  - intros m. split; [reflexivity |]. apply sqrt_fmax_ok.
  - intros m. split; [reflexivity |]. apply sqrt_fmax_ok.
  - intros x H. unfold Dbl.fmax. now rewrite H.
Qed.
End FloatProofs.

(** * The long-jump solver: its tables are transparent *)

Module LongJumpProofs.
Import LongJump.

Local Opaque outcomes_table.

(** ** The recursions do not depend on their fuel *)

Lemma jump_pick_ext (t1 t2 : Z -> Moments) (n : Z) (cnt : Counts) :
  (forall k, 0 <= k < n -> t1 k = t2 k) -> jump_pick t1 n cnt = jump_pick t2 n cnt.
Proof.
  intros H. unfold jump_pick. apply fold_left_ext_in.
  intros b fc Hfc%In_seqZ. rewrite H by lia. reflexivity.
Qed.

Lemma jump_val_fuel (f1 f2 : nat) (n : Z) :
  0 <= n -> (Z.to_nat n < f1)%nat -> (Z.to_nat n < f2)%nat ->
  jump_val f1 n = jump_val f2 n.
Proof.
  revert f2 n. induction f1 as [| f1 IH]; intros f2 n Hn H1 H2; [lia |].
  destruct f2 as [| f2]; [lia |]. simpl.
  destruct (n =? 0); [reflexivity |].
  apply fold_left_ext_in. intros acc pr _. f_equal.
  apply jump_pick_ext. intros k Hk. apply IH; lia.
Qed.

Lemma jump_val_enough (fuel : nat) (n : Z) :
  0 <= n -> (Z.to_nat n < fuel)%nat -> jump_val fuel n = jump n.
Proof. intros Hn H. unfold jump. apply jump_val_fuel; lia. Qed.

Lemma jump_unfold (n : Z) :
  0 <= n ->
  jump n =
  if n =? 0 then mkMoments 0 0
  else fold_left (fun acc pr => accumulate acc pr.2 (jump_pick jump n pr.1))
                 (outcomes_cache n) (mkMoments 0 0).
Proof.
  intros Hn. unfold jump at 1. simpl.
  destruct (n =? 0); [reflexivity |].
  apply fold_left_ext_in. intros acc pr _. f_equal.
  apply jump_pick_ext. intros k Hk. apply jump_val_enough; lia.
Qed.

Lemma runup_pick_ext (stopM : Moments) (t1 t2 : Z -> Z -> Moments)
    (n s : Z) (cnt : Counts) :
  (forall k s', 0 <= k < n -> t1 k s' = t2 k s') ->
  runup_pick stopM t1 n s cnt = runup_pick stopM t2 n s cnt.
Proof.
  intros H. unfold runup_pick. apply fold_left_ext_in.
  intros b fc Hfc%In_seqZ. simpl. rewrite H by lia. reflexivity.
Qed.

Lemma runup_val_fuel (f1 f2 : nat) (n s : Z) :
  0 <= n -> (Z.to_nat n < f1)%nat -> (Z.to_nat n < f2)%nat ->
  runup_val f1 n s = runup_val f2 n s.
Proof.
  revert f2 n s. induction f1 as [| f1 IH]; intros f2 n s Hn H1 H2; [lia |].
  destruct f2 as [| f2]; [lia |]. simpl.
  destruct (8 <? s); [reflexivity |].
  apply fold_left_ext_in. intros acc pr _. f_equal.
  apply runup_pick_ext. intros k s' Hk. apply IH; lia.
Qed.

Lemma runup_val_enough (fuel : nat) (n s : Z) :
  0 <= n -> (Z.to_nat n < fuel)%nat -> runup_val fuel n s = runup n s.
Proof. intros Hn H. unfold runup. apply runup_val_fuel; lia. Qed.

Lemma runup_unfold (n s : Z) :
  0 <= n ->
  runup n s =
  if 8 <? s then mkMoments 0 0
  else fold_left (fun acc pr => accumulate acc pr.2 (best_runup n s pr.1))
                 (outcomes_cache n) (mkMoments 0 0).
Proof.
  intros Hn. unfold runup at 1. simpl.
  destruct (8 <? s); [reflexivity |].
  apply fold_left_ext_in. intros acc pr _. f_equal.
  unfold best_runup, stop_moments.
  apply runup_pick_ext. intros k s' Hk. apply runup_val_enough; lia.
Qed.

(** ** The tables stay consistent *)

Lemma tables_ok_empty : tables_ok empty_tables.
Proof.
  unfold tables_ok, empty_tables; simpl.
  repeat split; try (intros; rewrite lookup_empty in *; discriminate).
  constructor.
Qed.

Lemma set_best_jump_spec (cnt : Counts) (fc : Z) :
  hoare tables_ok (set_best_jump cnt fc) (fun _ t' => tables_ok t').
Proof.
  intros t H. eexists tt, _. split; [reflexivity |]. exact H.
Qed.

Lemma set_memo_jump_spec (n : Z) :
  hoare tables_ok (set_memo_jump n (jump n)) (fun _ t' => tables_ok t').
Proof.
  intros t (Hj & Hr & Hb & Hc). eexists tt, _. split; [reflexivity |].
  split; [| split; [| split]]; simpl; auto. intros n' m H.
  destruct (decide (n = n')) as [<- | Hne].
  - rewrite lookup_insert_eq in H. congruence.
  - rewrite lookup_insert_ne in H by exact Hne. now apply Hj.
Qed.

Lemma set_memo_runup_spec (n s : Z) :
  hoare tables_ok (set_memo_runup (n, s) (runup n s)) (fun _ t' => tables_ok t').
Proof.
  intros t (Hj & Hr & Hb & Hc). eexists tt, _. split; [reflexivity |].
  split; [| split; [| split]]; simpl; auto. intros n' s' m H.
  destruct (decide ((n, s) = (n', s'))) as [E | Hne].
  - inversion E; subst. rewrite lookup_insert_eq in H. congruence.
  - rewrite lookup_insert_ne in H by exact Hne. now apply Hr.
Qed.

Lemma set_best_runup_spec (n s : Z) (cnt : Counts) :
  0 <= n <= 5 -> s <= 8 -> In cnt (map fst (outcomes_cache n)) ->
  hoare tables_ok (set_best_runup s cnt (best_fc (best_runup n s cnt)))
        (fun _ t' => tables_ok t').
Proof.
  intros Hn Hs Hcnt t (Hj & Hr & Hb & Hc). eexists tt, _.
  split; [reflexivity |].
  split; [| split; [| split]]; simpl; auto. intros s' cnt' fc H.
  destruct (decide ((s, cnt) = (s', cnt'))) as [E | Hne].
  - inversion E; subst. rewrite lookup_insert_eq in H. inversion H; subst.
    split; [exact Hs |]. exists n. auto.
  - rewrite lookup_insert_ne in H by exact Hne. now apply Hb.
Qed.

Lemma log_call_spec (n s : Z) :
  s <= 8 -> hoare tables_ok (log_call n s) (fun _ t' => tables_ok t').
Proof.
  intros Hs t (Hj & Hr & Hb & Hc). eexists tt, _. split; [reflexivity |].
  split; [| split; [| split]]; simpl; auto.
Qed.

(** ** The memoized solvers return the values of the recursions *)

Lemma solve_jump_pre_spec (fuel : nat) (n : Z) :
  0 <= n -> (Z.to_nat n < fuel)%nat ->
  hoare tables_ok (solve_jump_pre fuel n)
        (fun m t' => m = jump n /\ tables_ok t').
Proof.
  revert n. induction fuel as [| fuel IH]; intros n Hn Hf; [lia |].
  simpl. rewrite (jump_unfold n Hn).
  destruct (n =? 0) eqn:E0; [apply hoare_ret; auto |].
  intros t Hok. destruct (memo_jump t !! n) as [m |] eqn:E.
  - exists m, t. split; [reflexivity |]. split; [| exact Hok].
    destruct Hok as (Hj & _). rewrite (Hj _ _ E), (jump_unfold n Hn), E0.
    reflexivity.
  - clear E. revert t Hok.
    match goal with
    | |- forall t, tables_ok t -> exists a st', ?m t = _ /\ ?Q =>
        change (hoare tables_ok m
                  (fun a st' => a = fold_left
                       (fun acc pr => accumulate acc pr.2 (jump_pick jump n pr.1))
                       (outcomes_cache n) (mkMoments 0 0) /\ tables_ok st'))
    end.
    eapply hoare_bind.
    + apply hoare_foldM with
        (g := fun acc pr => accumulate acc pr.2 (jump_pick jump n pr.1)).
      intros acc pr _. eapply hoare_bind.
      * apply hoare_foldM with
          (g := fun b fc => jump_step pr.1 b fc (jump (n - fc))).
        intros b fc Hfc%In_seqZ. eapply hoare_bind.
        -- apply IH; lia.
        -- intros tail. apply hoare_ret. intros st [-> H]. auto.
      * intros b. apply hoare_assume. intros ->.
        eapply hoare_bind; [apply set_best_jump_spec |].
        intros u. apply hoare_ret. intros st H. split; [reflexivity | exact H].
    + intros acc. apply hoare_assume. intros ->.
      assert (Hu := jump_unfold n Hn). rewrite E0 in Hu. rewrite <- Hu.
      eapply hoare_bind; [apply set_memo_jump_spec |].
      intros u. apply hoare_ret. auto.
Qed.
Lemma solve_runup_pre_spec (jfuel fuel : nat) (n s : Z) :
  0 <= n <= 5 -> s <= 8 -> (Z.to_nat n < fuel)%nat -> (5 < jfuel)%nat ->
  hoare tables_ok (solve_runup_pre jfuel fuel n s)
        (fun m t' => m = runup n s /\ tables_ok t').
Proof.
  revert n s. induction fuel as [| fuel IH]; intros n s Hn Hs Hf Hj; [lia |].
  simpl. eapply hoare_bind; [apply log_call_spec; exact Hs |]. intros u.
  assert (E8 : (8 <? s) = false) by lia.
  assert (Hu := runup_unfold n s (proj1 Hn)). rewrite E8 in Hu.
  rewrite E8. intros t Hok.
  destruct (memo_runup t !! (n, s)) as [m |] eqn:E.
  - exists m, t. split; [reflexivity |]. split; [| exact Hok].
    destruct Hok as (_ & Hr & _). exact (Hr _ _ _ E).
  - clear E. revert t Hok.
    match goal with
    | |- forall t, tables_ok t -> exists a st', ?m t = _ /\ ?Q =>
        change (hoare tables_ok m (fun a st' => a = runup n s /\ tables_ok st'))
    end.
    eapply hoare_bind; [apply solve_jump_pre_spec; lia |].
    intros stopM. apply hoare_assume. intros ->.
    eapply hoare_bind.
    + apply hoare_foldM with
        (g := fun acc pr => accumulate acc pr.2 (best_runup n s pr.1)).
      intros acc pr Hpr. eapply hoare_bind.
      * apply hoare_foldM with
          (g := fun b fc =>
                  let frozen_sum := frozen_smallest pr.1 fc in
                  if 8 <? s + frozen_sum then b
                  else runup_step b fc (runup (n - fc) (s + frozen_sum))).
        intros b fc Hfc%In_seqZ. simpl.
        destruct (8 <? s + frozen_smallest pr.1 fc) eqn:Efs;
          [apply hoare_ret; auto |].
        eapply hoare_bind; [apply IH; lia |].
        intros tail. apply hoare_ret. intros st [-> H]. auto.
      * intros b. apply hoare_assume. intros ->.
        change (fold_left _ (seqZ 1 n) _) with (best_runup n s pr.1).
        eapply hoare_bind.
        -- apply set_best_runup_spec; [exact Hn | exact Hs |].
           apply in_map. exact Hpr.
        -- intros u'. apply hoare_ret. intros st H.
           split; [reflexivity | exact H].
    + intros acc. apply hoare_assume. intros ->. rewrite <- Hu.
      eapply hoare_bind; [apply set_memo_runup_spec |].
      intros u'. apply hoare_ret. auto.
Qed.

Lemma main_run_spec :
  exists m, main_solve empty_tables = Some (m, main_tables) /\
            m = runup 5 0 /\ tables_ok main_tables.
Proof.
  destruct (solve_runup_pre_spec 6 6 5 0 ltac:(lia) ltac:(lia) ltac:(lia)
              ltac:(lia) empty_tables tables_ok_empty) as (m & t & E & -> & H).
  exists (runup 5 0). unfold main_tables, main_solve. rewrite E. auto.
Qed.

(** ** The choice of a run-up state *)

Lemma frozen_smallest_0 (cnt : Counts) : frozen_smallest cnt 0 = 0.
Proof. reflexivity. Qed.

(** The stop action is the incumbent; a freeze replaces it only when it is
    legal and its tail EV is strictly greater than the incumbent's. *)
Lemma runup_pick_cases (stopM : Moments) (tail : Z -> Z -> Moments)
    (n s : Z) (cnt : Counts) :
  let b := runup_pick stopM tail n s cnt in
  (best_fc b = 0 /\ best_ev b = ev stopM /\ best_ev2 b = ev2 stopM) \/
  (1 <= best_fc b <= n /\ legal s cnt (best_fc b) = true /\
   best_ev b = ev (tail (n - best_fc b) (s + frozen_smallest cnt (best_fc b))) /\
   best_ev2 b = ev2 (tail (n - best_fc b) (s + frozen_smallest cnt (best_fc b))) /\
   exists fc, 1 <= fc <= n /\ legal s cnt fc = true /\
     PrimFloat.ltb (ev stopM)
       (ev (tail (n - fc) (s + frozen_smallest cnt fc))) = true).
Proof.
  unfold runup_pick. apply fold_left_invariant.
  - left. auto.
  - intros b fc Hfc%In_seqZ Hb. simpl.
    destruct (8 <? s + frozen_smallest cnt fc) eqn:E; [exact Hb |].
    unfold runup_step.
    destruct (PrimFloat.ltb (best_ev b) _) eqn:Elt; [| exact Hb].
    right. simpl. unfold legal. rewrite E. simpl.
    split; [lia |]. split; [reflexivity |]. split; [reflexivity |].
    split; [reflexivity |].
    destruct Hb as [(_ & Hev & _) | (_ & _ & _ & _ & fc' & H1 & H2 & H3)].
    + exists fc. unfold legal. rewrite E. rewrite <- Hev.
      split; [lia |]. split; [reflexivity | exact Elt].
    + exists fc'. auto.
Qed.

Lemma best_runup_ceiling (n s : Z) (cnt : Counts) :
  s <= 8 -> s + frozen_smallest cnt (best_fc (best_runup n s cnt)) <= 8.
Proof.
  intros Hs. unfold best_runup.
  destruct (runup_pick_cases (stop_moments n) runup n s cnt)
    as [(-> & _) | (_ & Hl & _)].
  - rewrite frozen_smallest_0. lia.
  - unfold legal in Hl. apply negb_true_iff in Hl. lia.
Qed.

(** The loop that skips the freeze counts above the ceiling is the loop over
    the legal freeze counts alone. *)
Lemma runup_pick_skips (stopM : Moments) (tail : Z -> Z -> Moments)
    (n s : Z) (cnt : Counts) :
  runup_pick stopM tail n s cnt =
  fold_left (fun b fc =>
               runup_step b fc (tail (n - fc) (s + frozen_smallest cnt fc)))
            (List.filter (legal s cnt) (seqZ 1 n))
            (mkPick (ev stopM) (ev2 stopM) 0).
Proof.
  rewrite <- fold_left_skip. unfold runup_pick, legal.
  apply fold_left_ext_in. intros b fc _. simpl.
  destruct (8 <? s + frozen_smallest cnt fc); reflexivity.
Qed.

(** ** The claims about the long-jump solver *)







(** C3.  A run of [solve_runup_pre] from consistent tables, on a state
    within the ceiling, returns, and in the tables it leaves every recorded
    best action keeps the frozen sum at 8 or below; the search itself is the
    search over the legal freeze counts alone, the others being skipped. *)
Theorem C3_recorded_action_within_ceiling (jfuel fuel : nat) (n s : Z)
    (t : Tables) :
  tables_ok t -> 0 <= n <= 5 -> s <= 8 ->
  (Z.to_nat n < fuel)%nat -> (5 < jfuel)%nat ->
  exists m t',
    solve_runup_pre jfuel fuel n s t = Some (m, t') /\
    (forall s0 cnt fc, best_runup_freeze t' !! (s0, cnt) = Some fc ->
       s0 + frozen_smallest cnt fc <= 8) /\
    (forall cnt,
       best_runup n s cnt =
       fold_left (fun b fc =>
                    runup_step b fc
                      (runup (n - fc) (s + frozen_smallest cnt fc)))
                 (List.filter (legal s cnt) (seqZ 1 n))
                 (mkPick (ev (stop_moments n)) (ev2 (stop_moments n)) 0)) /\
    (forall cnt, s + frozen_smallest cnt (best_fc (best_runup n s cnt)) <= 8).
Proof.
  intros Hok Hn Hs Hf Hj.
  destruct (solve_runup_pre_spec jfuel fuel n s Hn Hs Hf Hj t Hok)
    as (m & t' & E & _ & (_ & _ & Hb & _)).
  exists m, t'. split; [exact E |]. split; [| split].
  - intros s0 cnt fc H. destruct (Hb _ _ _ H) as (Hs0 & n0 & _ & _ & ->).
    now apply best_runup_ceiling.
  - intros cnt. apply runup_pick_skips.
  - intros cnt. now apply best_runup_ceiling.
Qed.

Lemma C3_recorded_action_within_ceiling_witness :
  exists m t',
    solve_runup_pre 6 6 5 0 empty_tables = Some (m, t') /\
    (forall s0 cnt fc, best_runup_freeze t' !! (s0, cnt) = Some fc ->
       s0 + frozen_smallest cnt fc <= 8) /\
    (forall cnt,
       best_runup 5 0 cnt =
       fold_left (fun b fc =>
                    runup_step b fc
                      (runup (5 - fc) (0 + frozen_smallest cnt fc)))
                 (List.filter (legal 0 cnt) (seqZ 1 5))
                 (mkPick (ev (stop_moments 5)) (ev2 (stop_moments 5)) 0)) /\
    (forall cnt, 0 + frozen_smallest cnt (best_fc (best_runup 5 0 cnt)) <= 8).
Proof.
  apply (C3_recorded_action_within_ceiling 6 6 5 0 empty_tables).
  - exact tables_ok_empty.
  - lia.
  - lia.
  - simpl. lia.
  - lia.
Defined.

(** C9.  The run of [main]: [solve_runup_pre(5, 0)] returns; the log of its
    calls starts with (5, 0), has 2395 entries, and every logged call has a
    frozen sum of 8 or less, so none of them takes the guard branch. *)
Theorem C9_every_call_within_ceiling :
  exists m,
    main_solve empty_tables = Some (m, main_tables) /\
    last (runup_calls main_tables) = Some (5, 0) /\
    Z.of_nat (length (runup_calls main_tables)) = 2395 /\
    Forall (fun call : Z * Z => call.2 <= 8 /\ (8 <? call.2) = false)
           (runup_calls main_tables).
Proof.
  destruct main_run_spec as (m & E & _ & (_ & _ & _ & Hc)).
  exists m. split; [exact E |].
  split; [vm_compute; reflexivity |]. split; [vm_compute; reflexivity |].
  eapply Forall_impl; [exact Hc |]. intros call H. simpl in *. split; lia.
Qed.

(** C10.  The moments of the stop action are what [solve_jump_pre] returns
    for the count of dice handed over, from whatever consistent tables; two
    run-up states with the same dice count that both stop have the same
    moments, whatever their frozen sums.  The moments a run-up state takes on
    an outcome are those of the stop action or those of the run-up state the
    chosen freeze leads to, unchanged: the frozen sum is added to neither. *)
Theorem C10_frozen_sum_not_in_the_score (jfuel : nat) (n s1 s2 : Z)
    (cnt1 cnt2 : Counts) (t1 t2 : Tables) :
  tables_ok t1 -> tables_ok t2 -> 0 <= n <= 5 -> (5 < jfuel)%nat ->
  (exists t1' t2',
     solve_jump_pre jfuel (5 - n) t1 = Some (stop_moments n, t1') /\
     solve_jump_pre jfuel (5 - n) t2 = Some (stop_moments n, t2')) /\
  (best_fc (best_runup n s1 cnt1) = 0 -> best_fc (best_runup n s2 cnt2) = 0 ->
     best_ev (best_runup n s1 cnt1) = best_ev (best_runup n s2 cnt2) /\
     best_ev2 (best_runup n s1 cnt1) = best_ev2 (best_runup n s2 cnt2)) /\
  ((best_ev (best_runup n s1 cnt1) = ev (stop_moments n) /\
    best_ev2 (best_runup n s1 cnt1) = ev2 (stop_moments n)) \/
   (exists fc, 1 <= fc <= n /\
      best_ev (best_runup n s1 cnt1)
        = ev (runup (n - fc) (s1 + frozen_smallest cnt1 fc)) /\
      best_ev2 (best_runup n s1 cnt1)
        = ev2 (runup (n - fc) (s1 + frozen_smallest cnt1 fc)))).
Proof.
  intros Hok1 Hok2 Hn Hj. split; [| split].
  - destruct (solve_jump_pre_spec jfuel (5 - n) ltac:(lia) ltac:(lia) t1 Hok1)
      as (m1 & t1' & E1 & -> & _).
    destruct (solve_jump_pre_spec jfuel (5 - n) ltac:(lia) ltac:(lia) t2 Hok2)
      as (m2 & t2' & E2 & -> & _).
    exists t1', t2'. auto.
  - intros H1 H2. unfold best_runup in *.
    destruct (runup_pick_cases (stop_moments n) runup n s1 cnt1)
      as [(_ & A1 & A2) | (A & _)]; [| lia].
    destruct (runup_pick_cases (stop_moments n) runup n s2 cnt2)
      as [(_ & B1 & B2) | (B & _)]; [| lia].
    split; congruence.
  - unfold best_runup.
    destruct (runup_pick_cases (stop_moments n) runup n s1 cnt1)
      as [(_ & A1 & A2) | (A & _ & A1 & A2 & _)].
    + left. auto.
    + right. eexists. split; [exact A |]. auto.
Qed.

Lemma C10_frozen_sum_not_in_the_score_witness :
  (exists t1' t2',
     solve_jump_pre 6 (5 - 1) empty_tables = Some (stop_moments 1, t1') /\
     solve_jump_pre 6 (5 - 1) main_tables = Some (stop_moments 1, t2')) /\
  (best_fc (best_runup 1 4 [0; 1; 0; 0; 0; 0; 0]) = 0 ->
   best_fc (best_runup 1 8 [0; 0; 0; 0; 0; 0; 1]) = 0 ->
     best_ev (best_runup 1 4 [0; 1; 0; 0; 0; 0; 0])
       = best_ev (best_runup 1 8 [0; 0; 0; 0; 0; 0; 1]) /\
     best_ev2 (best_runup 1 4 [0; 1; 0; 0; 0; 0; 0])
       = best_ev2 (best_runup 1 8 [0; 0; 0; 0; 0; 0; 1])) /\
  ((best_ev (best_runup 1 4 [0; 1; 0; 0; 0; 0; 0]) = ev (stop_moments 1) /\
    best_ev2 (best_runup 1 4 [0; 1; 0; 0; 0; 0; 0]) = ev2 (stop_moments 1)) \/
   (exists fc, 1 <= fc <= 1 /\
      best_ev (best_runup 1 4 [0; 1; 0; 0; 0; 0; 0])
        = ev (runup (1 - fc) (4 + frozen_smallest [0; 1; 0; 0; 0; 0; 0] fc)) /\
      best_ev2 (best_runup 1 4 [0; 1; 0; 0; 0; 0; 0])
        = ev2 (runup (1 - fc) (4 + frozen_smallest [0; 1; 0; 0; 0; 0; 0] fc)))).
Proof.
  apply (C10_frozen_sum_not_in_the_score 6 1 4 8
           [0; 1; 0; 0; 0; 0; 0] [0; 0; 0; 0; 0; 0; 1] empty_tables main_tables).
  - exact tables_ok_empty.
  - destruct main_run_spec as (m & _ & _ & H). exact H.
  - lia.
  - lia.
Defined.

Local Transparent outcomes_table.

(** C8.  [build_outcomes] leaves 6, 21, 56, 126 and 252 outcomes for one to
    five dice, the binomial coefficients C(n+5, 5), with no outcome twice;
    [ensure_four_outs] leaves 126 sorted four-dice tuples, none twice. *)
Theorem C8_outcome_counts :
  map (fun n => Z.of_nat (length (build_outcomes n))) [1; 2; 3; 4; 5]%nat
    = [6; 21; 56; 126; 252] /\
  map (fun n => binomial (n + 5) 5) [1; 2; 3; 4; 5]%nat
    = [6; 21; 56; 126; 252] /\
  Forall (fun n => NoDup (map fst (build_outcomes n))) [1; 2; 3; 4; 5]%nat /\
  outcomes_table = [] :: map build_outcomes [1; 2; 3; 4; 5]%nat /\
  Z.of_nat (length Sprint.ensure_four_outs) = 126 /\
  NoDup Sprint.ensure_four_outs /\
  Sprint.FOUR_OUTS = Sprint.ensure_four_outs.
Proof.
  split; [vm_compute; reflexivity |]. split; [vm_compute; reflexivity |].
  split.
  - repeat (apply List.Forall_cons;
              [apply (bool_decide_eq_true_1 (NoDup _)); vm_compute; reflexivity |]).
    apply List.Forall_nil.
  - split; [vm_compute; reflexivity |]. split; [vm_compute; reflexivity |].
    split; [| vm_compute; reflexivity].
    apply (bool_decide_eq_true_1 (NoDup _)). vm_compute. reflexivity.
Qed.

End LongJumpProofs.

(** * Further properties of the code *)

(** ** Reading a run backwards *)

Lemma bind_inv {St A B : Type} (m : M St A) (k : A -> M St B) (st : St)
    (r : B) (st' : St) :
  (m ≫= k) st = Some (r, st') ->
  exists a st1, m st = Some (a, st1) /\ k a st1 = Some (r, st').
Proof.
  unfold mbind, M_bind. destruct (m st) as [[a st1] |]; [| discriminate].
  intros H. exists a, st1. auto.
Qed.

Lemma ret_inv {St A : Type} (a r : A) (st st' : St) :
  mret (M := M St) a st = Some (r, st') -> r = a /\ st' = st.
Proof. intros [= -> ->]. auto. Qed.

(** An invariant of accumulator and state that every round of the loop
    keeps holds when the loop returns. *)
Lemma foldM_inv {St A B : Type} (K : B -> St -> Prop) (f : B -> A -> M St B)
    (l : list A) :
  (forall b x st b' st', In x l -> K b st -> f b x st = Some (b', st') -> K b' st') ->
  forall b st r st', K b st -> foldM f b l st = Some (r, st') -> K r st'.
Proof.
  induction l as [| x l IH]; intros Hf b st r st' HK E; simpl in E.
  - apply ret_inv in E. destruct E as [-> ->]. exact HK.
  - apply bind_inv in E. destruct E as (b1 & st1 & E1 & E2).
    apply (IH (fun b0 x0 s0 b' s' Hin => Hf b0 x0 s0 b' s' (or_intror Hin))
              b1 st1 r st'); [| exact E2].
    exact (Hf b x st b1 st1 (or_introl eq_refl) HK E1).
Qed.

(** ** The sprint solver *)

Module SprintMore.
Import Sprint SprintProofs.

Local Opaque FOUR_OUTS.

Section Strong.
Variable P : State -> Prop.
Hypothesis P_freeze : forall s r,
  P s -> (stage s =? 2) = false -> In r FOUR_OUTS -> P (freeze_child s r).
Hypothesis P_reroll : forall s r,
  P s -> (0 <? rerolls s) = true -> In r FOUR_OUTS -> P (reroll_child s r).
Variable memo0 : Memo.

Lemma emplace_strong (s : State) :
  P s ->
  hoare (grown_from P memo0) (emplace s (solve s))
        (fun _ memo' => grown_from P memo0 memo' /\ memo' !! s = Some (solve s)).
Proof.
  intros HP memo (Hok & Hsub & Hk). unfold emplace.
  destruct (memo !! s) as [r |] eqn:E.
  - exists tt, memo. split; [reflexivity |].
    split; [split; auto |]. rewrite (Hok _ _ E) in E. exact E.
  - exists tt, (<[s := solve s]> memo). split; [reflexivity |].
    split; [| apply lookup_insert_eq].
    split; [now apply memo_ok_insert |]. split.
    + etransitivity; [exact Hsub |]. now apply insert_subseteq.
    + intros k Hsome. destruct (decide (s = k)) as [<- | Hne]; [now right |].
      rewrite lookup_insert_ne in Hsome by exact Hne. auto.
Qed.

Lemma solve_state_strong (fuel : nat) (s : State) :
  (depth s <= fuel)%nat -> P s ->
  hoare (grown_from P memo0) (solve_state fuel s)
        (fun r memo' => r = solve s /\
                        (grown_from P memo0 memo' /\ memo' !! s = Some r)).
Proof.
  revert s. induction fuel as [| fuel IH]; intros s Hd HP.
  - unfold depth in Hd. destruct (stage s =? 2); lia.
  - intros memo Hg. simpl. destruct (memo !! s) as [r |] eqn:E.
    + exists r, memo. split; [reflexivity |].
      pose proof (proj1 Hg _ _ E) as ->.
      split; [reflexivity |]. split; [exact Hg | exact E].
    + clear E. revert memo Hg.
      change (hoare (grown_from P memo0)
        (fm ← (if stage s =? 2
               then mret (point (set1_score s + score_set (dice s)))
               else kids ← mapM (fun r =>
                                   child ← solve_state fuel (freeze_child s r);
                                   mret (best child)) FOUR_OUTS;
                    mret (combine_avg kids));
         rm ← (if 0 <? rerolls s
               then kids ← mapM (fun r =>
                                   child ← solve_state fuel (reroll_child s r);
                                   mret (best child)) FOUR_OUTS;
                    mret (Some (combine_avg kids))
               else mret None);
         emplace s (choose fm rm);; mret (choose fm rm))
        (fun r memo' => r = solve s /\
                        (grown_from P memo0 memo' /\ memo' !! s = Some r))).
      eapply hoare_bind with
        (R := fun fm memo' =>
                fm = (if stage s =? 2
                      then point (set1_score s + score_set (dice s))
                      else combine_avg
                             (map (fun r => best (solve (freeze_child s r))) FOUR_OUTS))
                /\ grown_from P memo0 memo').
      { destruct (stage s =? 2) eqn:E.
        - apply hoare_ret. auto.
        - eapply hoare_bind.
          + apply hoare_mapM with (g := fun r => best (solve (freeze_child s r))).
            intros r Hr. eapply hoare_bind.
            * apply IH; [pose proof (depth_freeze_child s r E); lia |].
              now apply P_freeze.
            * intros child. apply hoare_ret. intros st (-> & H & _). auto.
          + intros kids. apply hoare_ret. intros st [-> H]. auto. }
      intros fm. apply hoare_assume. intros ->.
      eapply hoare_bind with
        (R := fun rm memo' =>
                rm = (if 0 <? rerolls s
                      then Some (combine_avg
                             (map (fun r => best (solve (reroll_child s r))) FOUR_OUTS))
                      else None)
                /\ grown_from P memo0 memo').
      { destruct (0 <? rerolls s) eqn:E.
        - eapply hoare_bind.
          + apply hoare_mapM with (g := fun r => best (solve (reroll_child s r))).
            intros r Hr. eapply hoare_bind.
            * apply IH; [pose proof (depth_reroll_child s r E); lia |].
              now apply P_reroll.
            * intros child. apply hoare_ret. intros st (-> & H & _). auto.
          + intros kids. apply hoare_ret. intros st [-> H]. auto.
        - apply hoare_ret. auto. }
      intros rm. apply hoare_assume. intros ->.
      rewrite <- (solve_unfold s).
      eapply hoare_bind; [apply emplace_strong; exact HP |].
      intros u. apply hoare_ret. auto.
Qed.
End Strong.

Lemma grown_from_refl (P : State -> Prop) (memo : Memo) :
  memo_ok memo -> grown_from P memo memo.
Proof. intros H. split; [exact H |]. split; [reflexivity | auto]. Qed.

(** X1.  From a consistent memo table and with enough fuel [solve_state]
    returns; the table it leaves extends the one it got and holds the result
    under the state; a second call on that table, with any fuel, is a memo
    hit: the same result, the table unchanged. *)
Theorem solve_state_memoizes (fuel fuel' : nat) (s : State) (memo : Memo) :
  memo_ok memo -> (depth s <= fuel)%nat ->
  exists r memo',
    solve_state fuel s memo = Some (r, memo') /\
    memo ⊆ memo' /\ memo' !! s = Some r /\
    solve_state (S fuel') s memo' = Some (r, memo').
Proof.
  intros Hok Hd.
  destruct (solve_state_strong (fun _ => True) (fun _ _ _ _ _ => I)
              (fun _ _ _ _ _ => I) memo fuel s Hd I memo
              (grown_from_refl _ memo Hok))
    as (r & memo' & E & -> & (_ & Hsub & _) & Hs).
  exists (solve s), memo'. repeat split; auto.
  simpl. rewrite Hs. reflexivity.
Qed.

Lemma solve_state_memoizes_witness :
  exists r memo',
    solve_state 3 (mkState 2 1 [1; 1; 1; 3] (-3)) ∅ = Some (r, memo') /\
    ∅ ⊆ memo' /\ memo' !! mkState 2 1 [1; 1; 1; 3] (-3) = Some r /\
    solve_state (S 0) (mkState 2 1 [1; 1; 1; 3] (-3)) memo' = Some (r, memo').
Proof.
  apply (solve_state_memoizes 3 0 (mkState 2 1 [1; 1; 1; 3] (-3)) ∅).
  - exact memo_ok_empty.
  - vm_compute. lia.
Defined.

(** ** What [main] leaves in the memo table *)

Lemma FOUR_OUTS_scores (d : list Z) :
  In d FOUR_OUTS -> -24 <= score_set d <= 20.
Proof.
  assert (H : forallb (fun d => (-24 <=? score_set d) && (score_set d <=? 20))
                      FOUR_OUTS = true) by (vm_compute; reflexivity).
  rewrite forallb_forall in H. intros Hd. specialize (H d Hd). lia.
Qed.

(** The states [main] enumerates keep every sum within the range of [int]. *)
Lemma enumerated_no_overflow (s : State) : enumerated s -> no_overflow s.
Proof.
  intros (_ & Hd & Hst).
  assert (H : forallb (fun d =>
                forallb (fun z => (Int32.min <=? z) && (z <=? Int32.max)) d
                && forallb (fun z => (Int32.min <=? z) && (z <=? Int32.max))
                           (score_steps 0 d)) FOUR_OUTS = true)
    by (vm_compute; reflexivity).
  rewrite forallb_forall in H. specialize (H _ Hd).
  apply andb_true_iff in H. destruct H as [H1 H2].
  rewrite forallb_forall in H1, H2.
  pose proof (FOUR_OUTS_scores _ Hd) as Hs.
  assert (Hc : -24 <= set1_score s <= 7777) by (destruct Hst as [[_ ->] | [_ Hc]]; lia).
  unfold no_overflow, Int32.in_range.
  split; [| split; [| split]].
  - apply List.Forall_forall. intros z Hz. specialize (H1 z Hz). lia.
  - unfold Int32.min, Int32.max. lia.
  - apply List.Forall_forall. intros z Hz. specialize (H2 z Hz). lia.
  - unfold Int32.min, Int32.max. lia.
Qed.

Lemma enumerated_freeze (s : State) (r : list Z) :
  enumerated s -> (stage s =? 2) = false -> In r FOUR_OUTS ->
  enumerated (freeze_child s r).
Proof.
  intros (Hr & Hd & Hst) _ Hin. unfold enumerated, freeze_child. simpl.
  rewrite (FOUR_OUTS_sorted r Hin). split; [exact Hr |]. split; [exact Hin |].
  right. split; [reflexivity |]. now apply FOUR_OUTS_scores.
Qed.

Lemma enumerated_reroll (s : State) (r : list Z) :
  enumerated s -> (0 <? rerolls s) = true -> In r FOUR_OUTS ->
  enumerated (reroll_child s r).
Proof.
  intros (Hr & Hd & Hst) Hpos Hin. unfold enumerated, reroll_child. simpl.
  rewrite (FOUR_OUTS_sorted r Hin). split; [lia |]. split; [exact Hin |].
  exact Hst.
Qed.

Lemma enumerated_all_states (s : State) : enumerated s <-> In s all_states.
Proof.
  split.
  - destruct s as [st r d c]. unfold enumerated. simpl.
    intros (Hr & Hd & [[-> ->] | [-> Hc]]).
    + now apply all_states_stage1.
    + now apply all_states_stage2.
  - unfold all_states. intros [H | H]%in_app_or;
      apply list_elem_of_In, list_elem_of_bind in H;
      destruct H as (r & H & Hr%elem_of_seqZ);
      apply list_elem_of_bind in H; destruct H as (d & H & Hd%list_elem_of_In).
    + apply list_elem_of_singleton in H. subst. unfold enumerated. simpl.
      split; [lia |]. split; [exact Hd |]. left. auto.
    + apply list_elem_of_bind in H. destruct H as (c & H & Hc%elem_of_seqZ).
      apply list_elem_of_singleton in H. subst. unfold enumerated. simpl.
      split; [lia |]. split; [exact Hd |]. right. split; [reflexivity | lia].
Qed.

Lemma solve_all_stores (fuel : nat) (l : list State) (memo : Memo) :
  (forall s, In s l -> enumerated s /\ (depth s <= fuel)%nat) ->
  grown_from enumerated ∅ memo ->
  exists rs memo',
    mapM (solve_state fuel) l memo = Some (rs, memo') /\
    grown_from enumerated ∅ memo' /\ memo ⊆ memo' /\
    forall s, In s l -> memo' !! s = Some (solve s).
Proof.
  revert memo. induction l as [| s l IH]; intros memo Hl Hg.
  - exists [], memo. split; [reflexivity |]. split; [exact Hg |].
    split; [reflexivity |]. intros s [].
  - destruct (Hl s (or_introl eq_refl)) as [Hen Hd].
    destruct (solve_state_strong enumerated enumerated_freeze enumerated_reroll
                memo fuel s Hd Hen memo (grown_from_refl _ memo (proj1 Hg)))
      as (r & memo1 & E1 & -> & (Hok1 & Hsub1 & Hk1) & Hs1).
    assert (Hg1 : grown_from enumerated ∅ memo1).
    { split; [exact Hok1 |]. split; [apply map_empty_subseteq |].
      intros k Hk. destruct (Hk1 k Hk) as [H | H]; [| now right].
      exact (proj2 (proj2 Hg) k H). }
    destruct (IH memo1 (fun s' H => Hl s' (or_intror H)) Hg1)
      as (rs & memo2 & E2 & Hg2 & Hsub2 & Hall).
    exists (solve s :: rs), memo2. split.
    { simpl. unfold mbind, M_bind. rewrite E1, E2. reflexivity. }
    split; [exact Hg2 |]. split; [etransitivity; eassumption |].
    intros s' [<- | Hin]; [| now apply Hall].
    eapply lookup_weaken; eassumption.
Qed.

(** X2.  The memo table [main] ends with holds every state [main]
    enumerates, each with the value of the recursion, and holds no other
    state. *)
Theorem main_memo_is_the_policy (s : State) :
  (In s all_states -> main_memo !! s = Some (solve s) /\ returns s (solve s)) /\
  (is_Some (main_memo !! s) -> In s all_states).
Proof.
  destruct (solve_all_stores 12 all_states ∅) as (rs & memo' & E & Hg & _ & Hall).
  { intros s' Hs'. split; [now apply enumerated_all_states |].
    now apply all_states_depth. }
  { apply grown_from_refl, memo_ok_empty. }
  assert (Hm : main_memo = memo').
  { unfold main_memo, main_solve. unfold mbind at 1, M_bind at 1.
    rewrite E. reflexivity. }
  rewrite Hm. split.
  - intros Hs. split; [now apply Hall | apply solve_returns].
  - intros Hsome. apply enumerated_all_states.
    destruct (proj2 (proj2 Hg) s Hsome) as [H | H]; [| exact H].
    rewrite lookup_empty in H. destruct H as [? H]. discriminate.
Qed.

Lemma choose_freeze_m (fm : Moments) (rm : option Moments) :
  freeze_m (choose fm rm) = fm.
Proof.
  unfold choose. destruct rm; [| reflexivity].
  match goal with |- context [if ?b then _ else _] => destruct b end; reflexivity.
Qed.

Lemma choose_reroll_m (fm : Moments) (rm : option Moments) :
  reroll_m (choose fm rm) = rm.
Proof.
  unfold choose. destruct rm; [| reflexivity].
  match goal with |- context [if ?b then _ else _] => destruct b end; reflexivity.
Qed.

Lemma choose_rule (fm rm : Moments) :
  choose fm (Some rm) =
  if reroll_wins fm rm
  then mkSolveRes rm fm (Some rm) "reroll"
  else mkSolveRes fm fm (Some rm) "freeze".
Proof. reflexivity. Qed.

Lemma reroll_m_solve (s : State) :
  reroll_m (solve s) =
  if 0 <? rerolls s
  then Some (combine_avg (map (fun r => best (solve (reroll_child s r))) FOUR_OUTS))
  else None.
Proof. rewrite solve_unfold. apply choose_reroll_m. Qed.

(** X3.  With no reroll left (a budget of zero, or below) there are no
    reroll moments, the action is freeze and the best moments are the freeze
    moments. *)
Theorem no_rerolls_left_freezes (s : State) :
  rerolls s <= 0 ->
  exists r, returns s r /\
    reroll_m r = None /\ best_action r = "freeze"%string /\ best r = freeze_m r.
Proof.
  intros H. exists (solve s). split; [apply solve_returns |].
  rewrite solve_unfold.
  replace (0 <? rerolls s) with false by (symmetry; apply Z.ltb_ge; lia).
  simpl. auto.
Qed.

Lemma no_rerolls_left_freezes_witness :
  exists r, returns (mkState 1 (-2) [1; 1; 1; 1] 7777) r /\
    reroll_m r = None /\ best_action r = "freeze"%string /\ best r = freeze_m r.
Proof.
  apply (no_rerolls_left_freezes (mkState 1 (-2) [1; 1; 1; 1] 7777)).
  simpl. lia.
Defined.

(** X4.  The result of every state: reroll moments are absent exactly
    when the budget is zero or below; when they are present, the action is
    reroll and the best moments are the reroll moments if the test of lines
    84-85 holds of the returned freeze and reroll moments, and otherwise the
    action is freeze and the best moments are the freeze moments; the action
    is one of the two labels. *)
Theorem result_follows_the_rule (s : State) :
  exists r, returns s r /\
    (reroll_m r = None <-> rerolls s <= 0) /\
    (forall rm, reroll_m r = Some rm ->
       (reroll_wins (freeze_m r) rm = true ->
          best_action r = "reroll"%string /\ best r = rm) /\
       (reroll_wins (freeze_m r) rm = false ->
          best_action r = "freeze"%string /\ best r = freeze_m r)) /\
    (best_action r = "freeze"%string \/ best_action r = "reroll"%string).
Proof.
  exists (solve s). split; [apply solve_returns |].
  rewrite solve_unfold.
  destruct (0 <? rerolls s) eqn:E.
  - apply Z.ltb_lt in E. rewrite choose_rule.
    destruct (reroll_wins _ _) eqn:Ew; simpl.
    + split; [split; [discriminate | lia] |].
      split; [| auto].
      intros rm [= <-]. rewrite Ew. split; [auto | discriminate].
    + split; [split; [discriminate | lia] |].
      split; [| auto].
      intros rm [= <-]. rewrite Ew. split; [discriminate | auto].
  - apply Z.ltb_ge in E. simpl. split; [| split].
    + split; [lia | reflexivity].
    + intros rm [=].
    + auto.
Qed.

(** X5.  The reroll moments of a state do not depend on its dice: changing
    the dice, to any array, leaves them as they are. *)
Theorem reroll_moments_ignore_dice (s : State) (d : list Z) :
  reroll_m (solve (with_dice s d)) = reroll_m (solve s) /\
  returns s (solve s) /\ returns (with_dice s d) (solve (with_dice s d)).
Proof.
  split; [| split; apply solve_returns].
  rewrite !reroll_m_solve. reflexivity.
Qed.

(** X6.  At a state whose stage is not 2 the carried score is unused:
    whatever stands in [set1_score], the result is the same; and the freeze
    moments depend on the dice through their score alone. *)
Theorem stage1_ignores_carried_score (s : State) (c : Z) (d : list Z) :
  stage s <> 2 -> score_set d = score_set (dice s) ->
  solve (with_set1_score s c) = solve s /\
  freeze_m (solve (with_dice s d)) = freeze_m (solve s) /\
  returns s (solve s).
Proof.
  intros Hst Hsc. apply Z.eqb_neq in Hst.
  split; [| split; [| apply solve_returns]].
  - unfold solve. rewrite (solve_val_stage1 _ s c Hst). reflexivity.
  - rewrite !solve_unfold, !choose_freeze_m. simpl stage. rewrite Hst.
    f_equal. apply map_ext. intros r. unfold freeze_child. simpl.
    rewrite Hsc. reflexivity.
Qed.

Lemma stage1_ignores_carried_score_witness :
  solve (with_set1_score (mkState 1 2 [1; 2; 3; 4] 7777) 0)
    = solve (mkState 1 2 [1; 2; 3; 4] 7777) /\
  freeze_m (solve (with_dice (mkState 1 2 [1; 2; 3; 4] 7777) [2; 2; 3; 3]))
    = freeze_m (solve (mkState 1 2 [1; 2; 3; 4] 7777)) /\
  returns (mkState 1 2 [1; 2; 3; 4] 7777) (solve (mkState 1 2 [1; 2; 3; 4] 7777)).
Proof.
  apply (stage1_ignores_carried_score (mkState 1 2 [1; 2; 3; 4] 7777) 0 [2; 2; 3; 3]).
  - simpl. lia.
  - reflexivity.
Defined.

Lemma ltb_leb (x y : float) :
  PrimFloat.ltb x y = true -> PrimFloat.leb x y = true.
Proof.
  rewrite FloatAxioms.ltb_spec, FloatAxioms.leb_spec. unfold SFltb, SFleb.
  destruct (SFcompare _ _) as [[] |]; auto; discriminate.
Qed.

Lemma leb_0_not_ltb (x : float) :
  PrimFloat.leb 0 x = true -> PrimFloat.ltb x 0 = false.
Proof.
  rewrite FloatAxioms.ltb_spec, FloatAxioms.leb_spec.
  change (Prim2SF 0) with (S754_zero false).
  destruct (Prim2SF x) as [s | [] | | [] m e]; simpl; auto; discriminate.
Qed.

Lemma point_facts :
  Forall (fun t => sd (point t) = 0%float /\
                   PrimFloat.leb (ev (point t)) (ev (point t)) = true)
         (seqZ (-48) 89).
Proof. vm_compute. repeat constructor. Qed.

(** X7.  At a stage-2 state whose total is one two set scores can give,
    the freeze moments have SD zero, so the SD tie-break cannot choose
    reroll: the action is reroll exactly when the reroll EV is strictly
    greater than the freeze EV, and the best EV is never below the freeze
    EV. *)
Theorem stage2_rerolls_only_for_more_ev (s : State) :
  stage s = 2 -> -48 <= set1_score s + score_set (dice s) <= 40 ->
  exists r, returns s r /\
    sd (freeze_m r) = 0%float /\
    PrimFloat.leb (ev (freeze_m r)) (ev (best r)) = true /\
    forall rm, reroll_m r = Some rm ->
      (best_action r = "reroll"%string <->
       PrimFloat.ltb (ev (freeze_m r)) (ev rm) = true).
Proof.
  intros Hst Ht. exists (solve s). split; [apply solve_returns |].
  pose proof point_facts as Hp. rewrite Forall_forall in Hp.
  assert (Hin : set1_score s + score_set (dice s) ∈ seqZ (-48) 89)
    by (apply elem_of_seqZ; lia).
  destruct (Hp _ Hin) as [Hsd Hle].
  rewrite solve_unfold, Hst. change (2 =? 2) with true. cbv iota.
  set (fm := point _) in *. set (rm0 := if 0 <? rerolls s then _ else _).
  rewrite choose_freeze_m. split; [exact Hsd |].
  destruct rm0 as [rm |];
    [| cbn [choose best reroll_m]; split; [exact Hle | intros rm [=]]].
  rewrite choose_rule. unfold reroll_wins.
  rewrite Hsd, (leb_0_not_ltb (sd rm)) by apply FloatProofs.sqrt_fmax_ok.
  rewrite andb_false_r, orb_false_r.
  destruct (PrimFloat.ltb (ev fm) (ev rm)) eqn:E;
    cbn [best best_action freeze_m reroll_m].
  - split; [now apply ltb_leb |]. intros rm' [= <-]. rewrite E. tauto.
  - split; [exact Hle |]. intros rm' [= <-]. rewrite E.
    split; intros; discriminate.
Qed.

Lemma stage2_rerolls_only_for_more_ev_witness :
  exists r, returns (mkState 2 1 [1; 1; 1; 3] 4) r /\
    sd (freeze_m r) = 0%float /\
    PrimFloat.leb (ev (freeze_m r)) (ev (best r)) = true /\
    forall rm, reroll_m r = Some rm ->
      (best_action r = "reroll"%string <->
       PrimFloat.ltb (ev (freeze_m r)) (ev rm) = true).
Proof.
  apply (stage2_rerolls_only_for_more_ev (mkState 2 1 [1; 1; 1; 3] 4)).
  - reflexivity.
  - vm_compute. split; discriminate.
Defined.

(** ** Scores and canonical outcomes *)

Lemma score_set_acc (d : list Z) (a : Z) :
  fold_left (fun s v => s + (if v =? 6 then -6 else v)) d a = a + score_set d.
Proof.
  unfold score_set.
  assert (H : forall a b,
             fold_left (fun s v => s + (if v =? 6 then -6 else v)) d (a + b)
             = a + fold_left (fun s v => s + (if v =? 6 then -6 else v)) d b).
  { induction d as [| x d IH]; intros a' b; simpl; [reflexivity |].
    rewrite <- Z.add_assoc. apply IH. }
  rewrite <- (H a 0). f_equal. lia.
Qed.

Lemma score_set_cons (x : Z) (d : list Z) :
  score_set (x :: d) = die_score x + score_set d.
Proof. unfold score_set at 1. simpl. rewrite score_set_acc. reflexivity. Qed.

Lemma score_set_insert (x : Z) (d : list Z) :
  score_set (insert_sorted Z.leb x d) = die_score x + score_set d.
Proof.
  induction d as [| y d IH]; simpl; [apply score_set_cons |].
  destruct (x <=? y); rewrite !score_set_cons; [reflexivity |].
  rewrite IH. lia.
Qed.

Lemma score_set_sort (d : list Z) : score_set (sort Z.leb d) = score_set d.
Proof.
  induction d as [| x d IH]; [reflexivity |].
  simpl. rewrite score_set_insert, score_set_cons, IH. reflexivity.
Qed.

(** X8.  The score of dice with faces 1..6 lies between -6 and 5 per die,
    so between -24 and 20 for a set of four, the range of carried scores
    [main] enumerates, with both ends reached; sorting the dice does not
    change the score. *)
Theorem score_set_bounds (d : list Z) :
  Forall (fun v => 1 <= v <= 6) d ->
  -6 * Z.of_nat (length d) <= score_set d <= 5 * Z.of_nat (length d) /\
  score_set (sort Z.leb d) = score_set d /\
  (length d = 4%nat -> -24 <= score_set d <= 20) /\
  score_set [6; 6; 6; 6] = -24 /\ score_set [5; 5; 5; 5] = 20.
Proof.
  intros H.
  assert (Hb : -6 * Z.of_nat (length d) <= score_set d <= 5 * Z.of_nat (length d)).
  { induction H as [| x d Hx _ IH]; [simpl; unfold score_set; simpl; lia |].
    rewrite score_set_cons. unfold die_score. simpl length.
    destruct (x =? 6) eqn:E; lia. }
  split; [exact Hb |]. split; [apply score_set_sort |].
  split; [intros Hl; rewrite Hl in Hb; lia |]. split; reflexivity.
Qed.

Lemma score_set_bounds_witness :
  -6 * Z.of_nat (length [6; 6; 5; 5]) <= score_set [6; 6; 5; 5]
    <= 5 * Z.of_nat (length [6; 6; 5; 5]) /\
  score_set (sort Z.leb [6; 6; 5; 5]) = score_set [6; 6; 5; 5] /\
  (length [6; 6; 5; 5] = 4%nat -> -24 <= score_set [6; 6; 5; 5] <= 20) /\
  score_set [6; 6; 6; 6] = -24 /\ score_set [5; 5; 5; 5] = 20.
Proof.
  apply (score_set_bounds [6; 6; 5; 5]).
  repeat constructor; lia.
Defined.

Lemma list_eqb_eq (a b : list Z) : list_eqb a b = true -> a = b.
Proof.
  revert b. induction a as [| x a IH]; intros [| y b]; simpl; try discriminate; auto.
  intros [->%Z.eqb_eq H]%andb_true_iff. f_equal. now apply IH.
Qed.

Lemma all_rolls_in_FOUR_OUTS (t : list Z) : In t all_rolls -> In t FOUR_OUTS.
Proof.
  assert (H : forallb (fun t => existsb (list_eqb t) FOUR_OUTS) all_rolls = true)
    by (vm_compute; reflexivity).
  rewrite forallb_forall in H. intros Ht. specialize (H t Ht).
  apply existsb_exists in H. destruct H as (u & Hu & E).
  apply list_eqb_eq in E. subst. exact Hu.
Qed.

Lemma FOUR_OUTS_shape :
  forallb (fun t => (length t =? 4)%nat
                    && forallb (fun v => (1 <=? v) && (v <=? 6)) t
                    && (1 <=? multinomial t)) FOUR_OUTS = true.
Proof. vm_compute. reflexivity. Qed.

(** X9.  [ensure_four_outs] leaves the canonical outcomes: the sorted form
    of every roll of four dice is in [FOUR_OUTS]; every member has four faces
    in 1..6, is sorted, is the sorted form of at least one roll and scores
    within -24..20; the rolls the members stand for add up to 1296. *)
Theorem FOUR_OUTS_canonical :
  (forall a b c d, In a SIDES -> In b SIDES -> In c SIDES -> In d SIDES ->
     In (sort Z.leb [a; b; c; d]) FOUR_OUTS) /\
  (forall t, In t FOUR_OUTS ->
     length t = 4%nat /\ Forall (fun v => 1 <= v <= 6) t /\
     sort Z.leb t = t /\ 1 <= multinomial t /\ -24 <= score_set t <= 20) /\
  fold_left Z.add (map multinomial FOUR_OUTS) 0 = 1296.
Proof.
  split; [| split].
  - intros a b c d Ha Hb Hc Hd. apply all_rolls_in_FOUR_OUTS.
    unfold all_rolls. apply list_elem_of_In.
    apply list_elem_of_bind. exists a. split; [| now apply list_elem_of_In].
    apply list_elem_of_bind. exists b. split; [| now apply list_elem_of_In].
    apply list_elem_of_bind. exists c. split; [| now apply list_elem_of_In].
    apply list_elem_of_bind. exists d. split; [| now apply list_elem_of_In].
    apply list_elem_of_singleton. reflexivity.
  - intros t Ht. pose proof FOUR_OUTS_shape as H.
    rewrite forallb_forall in H. specialize (H t Ht).
    apply andb_true_iff in H. destruct H as [H Hm].
    apply andb_true_iff in H. destruct H as [Hl Hf].
    split; [now apply Nat.eqb_eq |]. split.
    + apply Forall_forall. intros v Hv. rewrite forallb_forall in Hf.
      specialize (Hf v (proj1 (list_elem_of_In _ _) Hv)). lia.
    + split; [now apply FOUR_OUTS_sorted |]. split; [lia |].
      now apply FOUR_OUTS_scores.
  - vm_compute. reflexivity.
Qed.

End SprintMore.

(** ** The long-jump solver *)

Module LongJumpMore.
Import LongJump LongJumpProofs.

Local Opaque outcomes_table.

Section TakeLoop.
Variable cnt : Counts.
Hypothesis cnt_nonneg : forall f, 0 <= c_at cnt f.

Lemma take_loop_cons (f : Z) (faces : list Z) (fs need : Z) :
  fold_left (take_step cnt) (f :: faces) (fs, need)
  = if 0 <? need
    then fold_left (take_step cnt) faces
           (fs + f * Z.min (c_at cnt f) need, need - Z.min (c_at cnt f) need)
    else fold_left (take_step cnt) faces (fs, need).
Proof. simpl. destruct (0 <? need); reflexivity. Qed.

Lemma take_loop_done (faces : list Z) (fs need : Z) :
  need <= 0 -> fold_left (take_step cnt) faces (fs, need) = (fs, need).
Proof.
  intros H. induction faces as [| f faces IH]; [reflexivity |].
  rewrite take_loop_cons.
  replace (0 <? need) with false by (symmetry; apply Z.ltb_ge; lia).
  exact IH.
Qed.

Lemma dice_on_nonneg (faces : list Z) : 0 <= dice_on cnt faces.
Proof.
  induction faces as [| g l IHl]; simpl; [lia |].
  pose proof (cnt_nonneg g). lia.
Qed.

Lemma pips_on_no_dice (faces : list Z) :
  dice_on cnt faces = 0 -> pips_on cnt faces = 0.
Proof.
  induction faces as [| g l IHl]; simpl; [reflexivity |].
  pose proof (cnt_nonneg g) as Hg. pose proof (dice_on_nonneg l) as Hl.
  intros H0.
  assert (c_at cnt g = 0) as -> by lia. rewrite IHl by lia. lia.
Qed.

(** What the loop has taken when it ends. *)
Lemma take_loop_bounds (faces : list Z) (fs need : Z) :
  Forall (fun f => 1 <= f <= 6) faces -> 0 <= need ->
  let r := fold_left (take_step cnt) faces (fs, need) in
  r.2 = Z.max 0 (need - dice_on cnt faces) /\
  fs + (need - r.2) <= r.1 <= fs + 6 * (need - r.2).
Proof.
  intros Hf. revert fs need.
  induction Hf as [| f faces Hf1 _ IH]; intros fs need Hn.
  - simpl. lia.
  - rewrite take_loop_cons.
    destruct (0 <? need) eqn:E.
    + pose proof (cnt_nonneg f) as Hc.
      set (take := Z.min (c_at cnt f) need).
      assert (Ht : 0 <= take <= need) by (unfold take; lia).
      destruct (IH (fs + f * take) (need - take) ltac:(lia)) as [H1 H2].
      cbv zeta in *. split.
      * rewrite H1. simpl dice_on. unfold take. lia.
      * assert (take <= f * take <= 6 * take) by nia. lia.
    + apply Z.ltb_ge in E. assert (need = 0) by lia. subst need.
      rewrite take_loop_done by lia. simpl.
      pose proof (cnt_nonneg f).
      pose proof (dice_on_nonneg faces). lia.
Qed.

(** With dice to spare for every face, the loop takes them all. *)
Lemma take_loop_all (faces : list Z) (fs need : Z) :
  dice_on cnt faces <= need ->
  fold_left (take_step cnt) faces (fs, need)
  = (fs + pips_on cnt faces, need - dice_on cnt faces).
Proof.
  revert fs need. induction faces as [| f faces IH]; intros fs need H.
  - simpl. f_equal; lia.
  - simpl in H. rewrite take_loop_cons.
    pose proof (cnt_nonneg f) as Hc.
    pose proof (dice_on_nonneg faces) as Hd.
    destruct (0 <? need) eqn:E.
    + rewrite Z.min_l by lia. rewrite IH by lia. simpl. f_equal; lia.
    + apply Z.ltb_ge in E. rewrite take_loop_done by lia.
      assert (Hc0 : c_at cnt f = 0) by lia.
      assert (Hd0 : dice_on cnt faces = 0) by lia.
      simpl. rewrite Hc0, Hd0, (pips_on_no_dice faces Hd0). f_equal; lia.
Qed.
End TakeLoop.

Lemma wf_counts_nonneg (cnt : Counts) : wf_counts cnt -> forall f, 0 <= c_at cnt f.
Proof.
  intros (_ & _ & H) f. unfold c_at.
  destruct (nth_in_or_default (Z.to_nat f) cnt 0) as [Hin | ->]; [| lia].
  rewrite List.Forall_forall in H. now apply H.
Qed.

Lemma total_dice_on (cnt : Counts) :
  total cnt = dice_on cnt [1; 2; 3; 4; 5; 6] /\
  total cnt = dice_on cnt [6; 5; 4; 3; 2; 1] /\
  sum cnt = pips_on cnt [1; 2; 3; 4; 5; 6] /\
  sum cnt = pips_on cnt [6; 5; 4; 3; 2; 1].
Proof.
  unfold total, sum, dice_on, pips_on.
  change (seqZ 1 6) with [1; 2; 3; 4; 5; 6]. simpl. lia.
Qed.

(** X10.  The loops that freeze dice, on well-formed counts: freezing
    [k] dice, for k from 0 to the number of dice, gives a sum between k and
    6k, smallest first as well as largest first; a freeze count of zero or
    below freezes nothing; a freeze count of the number of dice or more
    freezes them all, and the sum is [Counts::sum]. *)
Theorem frozen_sum_bounds (cnt : Counts) (fc : Z) :
  wf_counts cnt ->
  (0 <= fc <= total cnt ->
     fc <= frozen_smallest cnt fc <= 6 * fc /\
     fc <= frozen_largest cnt fc <= 6 * fc) /\
  (fc <= 0 -> frozen_smallest cnt fc = 0 /\ frozen_largest cnt fc = 0) /\
  (total cnt <= fc ->
     frozen_smallest cnt fc = sum cnt /\ frozen_largest cnt fc = sum cnt).
Proof.
  intros Hwf. pose proof (wf_counts_nonneg cnt Hwf) as Hnn.
  destruct (total_dice_on cnt) as (T1 & T2 & S1 & S2).
  unfold frozen_smallest, frozen_largest. split; [| split].
  - intros Hfc.
    destruct (take_loop_bounds cnt Hnn [1; 2; 3; 4; 5; 6] 0 fc) as [A1 A2];
      [repeat constructor; lia | lia |].
    destruct (take_loop_bounds cnt Hnn [6; 5; 4; 3; 2; 1] 0 fc) as [B1 B2];
      [repeat constructor; lia | lia |].
    cbv zeta in *. rewrite <- T1 in A1. rewrite <- T2 in B1.
    rewrite A1 in A2. rewrite B1 in B2. lia.
  - intros Hfc. rewrite !take_loop_done by lia. auto.
  - intros Hfc. rewrite !(take_loop_all cnt Hnn) by lia. cbn [fst]. lia.
Qed.

Lemma frozen_sum_bounds_witness :
  (0 <= 2 <= total [0; 1; 0; 2; 0; 0; 2] ->
     2 <= frozen_smallest [0; 1; 0; 2; 0; 0; 2] 2 <= 6 * 2 /\
     2 <= frozen_largest [0; 1; 0; 2; 0; 0; 2] 2 <= 6 * 2) /\
  (2 <= 0 -> frozen_smallest [0; 1; 0; 2; 0; 0; 2] 2 = 0 /\
             frozen_largest [0; 1; 0; 2; 0; 0; 2] 2 = 0) /\
  (total [0; 1; 0; 2; 0; 0; 2] <= 2 ->
     frozen_smallest [0; 1; 0; 2; 0; 0; 2] 2 = sum [0; 1; 0; 2; 0; 0; 2] /\
     frozen_largest [0; 1; 0; 2; 0; 0; 2] 2 = sum [0; 1; 0; 2; 0; 0; 2]).
Proof.
  apply (frozen_sum_bounds [0; 1; 0; 2; 0; 0; 2] 2).
  split; [reflexivity |]. split; [reflexivity |]. repeat constructor; lia.
Defined.

Lemma wf_countsb_ok (cnt : Counts) : wf_countsb cnt = true -> wf_counts cnt.
Proof.
  unfold wf_countsb, wf_counts.
  intros [[H1 H2]%andb_true_iff H3]%andb_true_iff.
  split; [now apply Nat.eqb_eq |]. split; [now apply Z.eqb_eq |].
  apply List.Forall_forall. intros x Hx. rewrite forallb_forall in H3.
  specialize (H3 x Hx). lia.
Qed.

Lemma outcomes_checked : forallb outcomes_okb (seqZ 1 5) = true.
Proof. vm_compute. reflexivity. Qed.

Lemma outcomes_cache_range (n : Z) (pr : Counts * float) :
  In pr (outcomes_cache n) -> 1 <= n <= 5.
Proof.
  unfold outcomes_cache. intros H.
  destruct (Z.to_nat n) as [| k] eqn:E; [destruct H |].
  assert (k < 5)%nat; [| lia].
  destruct (Nat.lt_ge_cases k 5) as [Hk | Hk]; [exact Hk |].
  rewrite nth_overflow in H; [destruct H |].
  change (length outcomes_table) with 6%nat. lia.
Qed.

Lemma outcomes_cache_facts (n : Z) (pr : Counts * float) :
  In pr (outcomes_cache n) ->
  1 <= n <= 5 /\ wf_counts pr.1 /\ total pr.1 = n /\ PrimFloat.ltb 0 pr.2 = true.
Proof.
  intros H. pose proof (outcomes_cache_range n pr H) as Hn.
  split; [exact Hn |].
  pose proof outcomes_checked as Hc. rewrite forallb_forall in Hc.
  specialize (Hc n (proj2 (In_seqZ n 1 5) ltac:(lia))).
  unfold outcomes_okb in Hc. apply andb_true_iff in Hc. destruct Hc as [Hc _].
  rewrite forallb_forall in Hc. specialize (Hc pr H).
  apply andb_true_iff in Hc. destruct Hc as [Hc H3].
  apply andb_true_iff in Hc. destruct Hc as [H1 H2].
  split; [now apply wf_countsb_ok |]. split; [now apply Z.eqb_eq | exact H3].
Qed.

(** X11.  For one to five dice, every outcome [build_outcomes] stores has
    well-formed counts that add up to the number of dice and a probability
    above zero, and the probabilities of the vector, added in its order, are
    within 2^-40 of 1; slot 0 of the cache holds no outcome. *)
Theorem outcomes_are_distributions (n : Z) :
  1 <= n <= 5 ->
  (forall pr, In pr (outcomes_cache n) ->
     wf_counts pr.1 /\ total pr.1 = n /\ PrimFloat.ltb 0 pr.2 = true) /\
  PrimFloat.ltb (PrimFloat.abs (prob_sum (outcomes_cache n) - 1)) prob_tol = true /\
  outcomes_cache 0 = [].
Proof.
  intros Hn. split; [| split; [| reflexivity]].
  - intros pr H. now apply (outcomes_cache_facts n pr H).
  - pose proof outcomes_checked as Hc. rewrite forallb_forall in Hc.
    specialize (Hc n (proj2 (In_seqZ n 1 5) ltac:(lia))).
    unfold outcomes_okb in Hc. apply andb_true_iff in Hc. apply Hc.
Qed.

Lemma outcomes_are_distributions_witness :
  (forall pr, In pr (outcomes_cache 5) ->
     wf_counts pr.1 /\ total pr.1 = 5 /\ PrimFloat.ltb 0 pr.2 = true) /\
  PrimFloat.ltb (PrimFloat.abs (prob_sum (outcomes_cache 5) - 1)) prob_tol = true /\
  outcomes_cache 0 = [].
Proof. apply (outcomes_are_distributions 5). lia. Defined.

(** X12.  [Counts::operator==] compares slots 1..6; on well-formed counts
    it holds exactly when the two arrays are equal, so the keys of the policy
    tables are told apart as [RKEq] and [JKEq] tell them. *)
Theorem counts_eqb_is_equality (a b : Counts) :
  wf_counts a -> wf_counts b -> (counts_eqb a b = true <-> a = b).
Proof.
  intros (La & Za & _) (Lb & Zb & _).
  destruct a as [| a0 [| a1 [| a2 [| a3 [| a4 [| a5 [| a6 [| ? ?]]]]]]]];
    try discriminate.
  destruct b as [| b0 [| b1 [| b2 [| b3 [| b4 [| b5 [| b6 [| ? ?]]]]]]]];
    try discriminate.
  unfold c_at in Za, Zb. simpl in Za, Zb. subst a0 b0.
  unfold counts_eqb. change (seqZ 1 6) with [1; 2; 3; 4; 5; 6].
  unfold c_at. simpl. split.
  - intros H. repeat (apply andb_true_iff in H; destruct H as [?%Z.eqb_eq H]).
    subst. reflexivity.
  - intros [= -> -> -> -> -> ->]. rewrite !Z.eqb_refl. reflexivity.
Qed.

Lemma counts_eqb_is_equality_witness :
  counts_eqb [0; 1; 0; 2; 0; 0; 2] [0; 1; 0; 2; 0; 0; 2] = true
  <-> [0; 1; 0; 2; 0; 0; 2] = [0; 1; 0; 2; 0; 0; 2].
Proof.
  apply (counts_eqb_is_equality [0; 1; 0; 2; 0; 0; 2] [0; 1; 0; 2; 0; 0; 2]).
  - split; [reflexivity |]. split; [reflexivity |]. repeat constructor; lia.
  - split; [reflexivity |]. split; [reflexivity |]. repeat constructor; lia.
Defined.

Lemma jump_entries_ok_empty : jump_entries_ok empty_tables.
Proof. intros cnt fc H. simpl in H. rewrite lookup_empty in H. discriminate. Qed.

Lemma jump_step_fc (cnt : Counts) (b : Pick) (fc : Z) (tail : Moments) :
  best_fc (jump_step cnt b fc tail) = fc \/
  best_fc (jump_step cnt b fc tail) = best_fc b.
Proof.
  unfold jump_step.
  match goal with |- context [if ?c then _ else _] => destruct c end; simpl; auto.
Qed.

(** [solve_jump_pre] records freeze counts between 1 and the dice count. *)
Lemma solve_jump_pre_keeps (fuel : nat) (n : Z) (t : Tables) (m : Moments)
    (t' : Tables) :
  jump_entries_ok t -> solve_jump_pre fuel n t = Some (m, t') ->
  jump_entries_ok t'.
Proof.
  revert n t m t'. induction fuel as [| fuel IH]; intros n t m t' HJ E;
    [discriminate |].
  simpl in E. destruct (n =? 0).
  { apply ret_inv in E. destruct E as [_ ->]. exact HJ. }
  destruct (memo_jump t !! n) as [m0 |].
  { inversion E; subst. exact HJ. }
  apply bind_inv in E. destruct E as (acc & t1 & E1 & E2).
  apply bind_inv in E2. destruct E2 as ([] & t2 & E2 & E3).
  apply ret_inv in E3. destruct E3 as [_ ->].
  inversion E2; subst t2; clear E2.
  assert (H1 : jump_entries_ok t1).
  { revert E1. apply (foldM_inv (fun _ st => jump_entries_ok st)); [| exact HJ].
    intros acc0 pr st acc1 st1 Hpr HK E.
    apply bind_inv in E. destruct E as (b & st2 & Eb & E).
    apply bind_inv in E. destruct E as ([] & st3 & Es & E).
    apply ret_inv in E. destruct E as [_ ->].
    inversion Es; subst st3; clear Es.
    destruct (outcomes_cache_facts n pr Hpr) as (Hn & _ & Htot & _).
    assert (Hb : jump_entries_ok st2 /\ 1 <= best_fc b <= n).
    { revert Eb.
      apply (foldM_inv (fun b0 st => jump_entries_ok st /\ 1 <= best_fc b0 <= n));
        [| simpl; split; [exact HK | lia]].
      intros b0 fc st0 b1 st4 Hfc%In_seqZ [HK0 Hb0] E.
      apply bind_inv in E. destruct E as (tail & st5 & Et & E).
      apply ret_inv in E. destruct E as [-> ->].
      split; [exact (IH _ _ _ _ HK0 Et) |].
      destruct (jump_step_fc pr.1 b0 fc tail) as [-> | ->]; lia. }
    destruct Hb as [HK2 Hb]. intros cnt fc. simpl.
    destruct (decide (pr.1 = cnt)) as [<- | Hne].
    - rewrite lookup_insert_eq. intros [= <-]. lia.
    - rewrite lookup_insert_ne by exact Hne. apply HK2. }
  exact H1.
Qed.

Lemma solve_runup_pre_keeps (jfuel fuel : nat) (n s : Z) (t : Tables)
    (m : Moments) (t' : Tables) :
  jump_entries_ok t -> solve_runup_pre jfuel fuel n s t = Some (m, t') ->
  jump_entries_ok t'.
Proof.
  revert n s t m t'. induction fuel as [| fuel IH]; intros n s t m t' HJ E;
    [discriminate |].
  simpl in E. apply bind_inv in E. destruct E as ([] & t0 & E0 & E).
  assert (HJ0 : jump_entries_ok t0) by (inversion E0; subst t0; exact HJ).
  clear E0 HJ.
  destruct (8 <? s).
  { apply ret_inv in E. destruct E as [_ ->]. exact HJ0. }
  destruct (memo_runup t0 !! (n, s)) as [m0 |].
  { inversion E; subst. exact HJ0. }
  apply bind_inv in E. destruct E as (stopM & t1 & E1 & E).
  assert (H1 : jump_entries_ok t1) by (exact (solve_jump_pre_keeps _ _ _ _ _ HJ0 E1)).
  apply bind_inv in E. destruct E as (acc & t2 & E2 & E).
  apply bind_inv in E. destruct E as ([] & t3 & E3 & E).
  apply ret_inv in E. destruct E as [_ ->].
  inversion E3; subst t3; clear E3.
  change (jump_entries_ok t2).
  revert E2. apply (foldM_inv (fun _ st => jump_entries_ok st)); [| exact H1].
  intros acc0 pr st acc1 st1 Hpr HK E.
  apply bind_inv in E. destruct E as (b & st2 & Eb & E).
  apply bind_inv in E. destruct E as ([] & st3 & Es & E).
  apply ret_inv in E. destruct E as [_ ->].
  inversion Es; subst st3; clear Es.
  change (jump_entries_ok st2).
  revert Eb. apply (foldM_inv (fun _ st => jump_entries_ok st)); [| exact HK].
  intros b0 fc st0 b1 st4 Hfc HK0 E.
  destruct (8 <? s + frozen_smallest pr.1 fc).
  - apply ret_inv in E. destruct E as [_ ->]. exact HK0.
  - apply bind_inv in E. destruct E as (tail & st5 & Et & E).
    apply ret_inv in E. destruct E as [_ ->].
    exact (IH _ _ _ _ _ HK0 Et).
Qed.

(** X13.  The policy tables [main] ends with: every recorded jump
    action freezes at least one die and at most all of the outcome; every
    recorded run-up action is a stop (0) or freezes some but never all of the
    dice of the outcome, at a frozen sum of 8 or less; the tables have 461 and
    1556 rows. *)
Theorem recorded_freeze_counts_in_range :
  (forall cnt fc, best_jump_freeze main_tables !! cnt = Some fc ->
     1 <= fc <= total cnt) /\
  (forall s cnt fc, best_runup_freeze main_tables !! (s, cnt) = Some fc ->
     0 <= fc < total cnt /\ s <= 8 /\ 1 <= total cnt <= 5) /\
  Z.of_nat (size (best_jump_freeze main_tables)) = 461 /\
  Z.of_nat (size (best_runup_freeze main_tables)) = 1556.
Proof.
  destruct main_run_spec as (m & E & _ & (_ & _ & Hb & _)).
  split; [| split; [| split; vm_compute; reflexivity]].
  - exact (solve_runup_pre_keeps _ _ _ _ _ _ _ jump_entries_ok_empty E).
  - intros s cnt fc H.
    destruct (Hb _ _ _ H) as (Hs & n & Hn & Hin & ->).
    apply in_map_iff in Hin. destruct Hin as (pr & <- & Hpr).
    destruct (outcomes_cache_facts n pr Hpr) as (Hn' & _ & Htot & _).
    rewrite Htot.
    split; [| split; [exact Hs | exact Hn']].
    assert (Hshort : runup_entries_short main_tables = true)
      by (vm_compute; reflexivity).
    unfold runup_entries_short in Hshort. rewrite forallb_forall in Hshort.
    specialize (Hshort (s, pr.1, best_fc (best_runup n s pr.1))
                  (proj1 (list_elem_of_In _ _)
                     (proj2 (elem_of_map_to_list _ _ _) H))).
    cbn [fst snd] in Hshort. rewrite Htot in Hshort. split; [| lia].
    unfold best_runup.
    destruct (runup_pick_cases (stop_moments n) runup n s pr.1)
      as [(-> & _) | (H1 & _)]; lia.
Qed.

Lemma solve_jump_pre_stores (fuel : nat) (n : Z) (t : Tables) (m : Moments)
    (t' : Tables) :
  n <> 0 -> solve_jump_pre fuel n t = Some (m, t') ->
  memo_jump t' !! n = Some m.
Proof.
  intros Hn E. destruct fuel as [| fuel]; [discriminate |].
  simpl in E. replace (n =? 0) with false in E by (symmetry; apply Z.eqb_neq; lia).
  destruct (memo_jump t !! n) as [m0 |] eqn:Em.
  { inversion E; subst. exact Em. }
  apply bind_inv in E. destruct E as (acc & t1 & _ & E).
  apply bind_inv in E. destruct E as ([] & t2 & E2 & E).
  apply ret_inv in E. destruct E as [-> ->].
  inversion E2; subst t2. simpl. apply lookup_insert_eq.
Qed.

Lemma solve_runup_pre_stores (jfuel fuel : nat) (n s : Z) (t : Tables)
    (m : Moments) (t' : Tables) :
  s <= 8 -> solve_runup_pre jfuel fuel n s t = Some (m, t') ->
  memo_runup t' !! (n, s) = Some m.
Proof.
  intros Hs E. destruct fuel as [| fuel]; [discriminate |].
  simpl in E. apply bind_inv in E. destruct E as ([] & t0 & E0 & E).
  replace (8 <? s) with false in E by (symmetry; apply Z.ltb_ge; lia).
  destruct (memo_runup t0 !! (n, s)) as [m0 |] eqn:Em.
  { inversion E; subst. exact Em. }
  apply bind_inv in E. destruct E as (stopM & t1 & _ & E).
  apply bind_inv in E. destruct E as (acc & t2 & _ & E).
  apply bind_inv in E. destruct E as ([] & t3 & E3 & E).
  apply ret_inv in E. destruct E as [-> ->].
  inversion E3; subst t3. simpl. apply lookup_insert_eq.
Qed.

(** X14.  From consistent tables both solvers of the long jump return and
    store their result in their memo table; a second call, with any fuel, is
    a memo hit that returns the same moments and changes no table (the call
    of [solve_runup_pre] is logged). *)
Theorem longjump_memo_hits (jfuel fuel fuel' : nat) (n s : Z) (t : Tables) :
  tables_ok t -> 0 <= n <= 5 -> s <= 8 ->
  (Z.to_nat n < fuel)%nat -> (5 < jfuel)%nat ->
  (exists m t',
     solve_runup_pre jfuel fuel n s t = Some (m, t') /\
     memo_runup t' !! (n, s) = Some m /\
     solve_runup_pre jfuel (S fuel') n s t' = Some (m, logged n s t')) /\
  (n <> 0 ->
   exists m t',
     solve_jump_pre jfuel n t = Some (m, t') /\
     memo_jump t' !! n = Some m /\
     solve_jump_pre (S fuel') n t' = Some (m, t')).
Proof.
  intros Hok Hn Hs Hf Hj. split.
  - destruct (solve_runup_pre_spec jfuel fuel n s Hn Hs Hf Hj t Hok)
      as (m & t' & E & _ & _).
    pose proof (solve_runup_pre_stores _ _ _ _ _ _ _ Hs E) as Hm.
    exists m, t'. split; [exact E |]. split; [exact Hm |].
    simpl. unfold mbind, M_bind, log_call.
    replace (8 <? s) with false by (symmetry; apply Z.ltb_ge; lia).
    cbn [memo_runup]. rewrite Hm. reflexivity.
  - intros Hn0.
    destruct (solve_jump_pre_spec jfuel n ltac:(lia) ltac:(lia) t Hok)
      as (m & t' & E & _ & _).
    pose proof (solve_jump_pre_stores _ _ _ _ _ Hn0 E) as Hm.
    exists m, t'. split; [exact E |]. split; [exact Hm |].
    simpl. replace (n =? 0) with false by (symmetry; apply Z.eqb_neq; lia).
    rewrite Hm. reflexivity.
Qed.

Lemma longjump_memo_hits_witness :
  (exists m t',
     solve_runup_pre 6 6 5 0 empty_tables = Some (m, t') /\
     memo_runup t' !! (5, 0) = Some m /\
     solve_runup_pre 6 (S 0) 5 0 t' = Some (m, logged 5 0 t')) /\
  (5 <> 0 ->
   exists m t',
     solve_jump_pre 6 5 empty_tables = Some (m, t') /\
     memo_jump t' !! 5 = Some m /\
     solve_jump_pre (S 0) 5 t' = Some (m, t')).
Proof.
  apply (longjump_memo_hits 6 6 0 5 0 empty_tables).
  - exact tables_ok_empty.
  - lia.
  - lia.
  - simpl. lia.
  - lia.
Defined.

Lemma runup_no_dice (s : Z) : runup 0 s = mkMoments 0 0.
Proof. unfold runup. simpl. destruct (8 <? s); reflexivity. Qed.

(** X15.  The zero values of the run-up: past the ceiling
    [solve_runup_pre] returns zero moments and writes to no table; with no
    die left to roll it returns zero moments as well and stores them; so a
    freeze of all the dice of a roll, when it is the choice, carries zero
    moments. *)
Theorem runup_zero_values (jfuel fuel : nat) (n s : Z) (t : Tables) :
  (8 < s ->
     solve_runup_pre jfuel (S fuel) n s t = Some (mkMoments 0 0, logged n s t)) /\
  (s <= 8 -> tables_ok t -> (5 < jfuel)%nat ->
     exists t', solve_runup_pre jfuel (S fuel) 0 s t = Some (mkMoments 0 0, t')
                /\ tables_ok t'
                /\ memo_runup t' !! (0, s) = Some (mkMoments 0 0)) /\
  (forall cnt, 1 <= n -> best_fc (best_runup n s cnt) = n ->
     best_ev (best_runup n s cnt) = 0%float /\
     best_ev2 (best_runup n s cnt) = 0%float).
Proof.
  split; [| split].
  - intros Hs. simpl. unfold mbind, M_bind, log_call.
    replace (8 <? s) with true by (symmetry; apply Z.ltb_lt; lia).
    reflexivity.
  - intros Hs Hok Hj.
    destruct (solve_runup_pre_spec jfuel (S fuel) 0 s ltac:(lia) Hs
                ltac:(simpl; lia) Hj t Hok) as (m & t' & E & -> & Hok').
    pose proof (solve_runup_pre_stores _ _ _ _ _ _ _ Hs E) as Hm.
    rewrite runup_no_dice in *. exists t'. auto.
  - intros cnt Hn Hfc. unfold best_runup in *.
    destruct (runup_pick_cases (stop_moments n) runup n s cnt)
      as [(H0 & _) | (_ & _ & H1 & H2 & _)]; [lia |].
    rewrite H1, H2, Hfc, Z.sub_diag, runup_no_dice. auto.
Qed.

Lemma solve_jump_pre_frame (fuel : nat) (n : Z) (t0 t : Tables) (m : Moments)
    (t' : Tables) :
  same_runup_tables t0 t -> solve_jump_pre fuel n t = Some (m, t') ->
  same_runup_tables t0 t'.
Proof.
  revert n t m t'. induction fuel as [| fuel IH]; intros n t m t' HS E;
    [discriminate |].
  simpl in E. destruct (n =? 0).
  { apply ret_inv in E. destruct E as [_ ->]. exact HS. }
  destruct (memo_jump t !! n) as [m0 |].
  { inversion E; subst. exact HS. }
  apply bind_inv in E. destruct E as (acc & t1 & E1 & E2).
  apply bind_inv in E2. destruct E2 as ([] & t2 & E2 & E3).
  apply ret_inv in E3. destruct E3 as [_ ->].
  inversion E2; subst t2; clear E2.
  change (same_runup_tables t0 t1).
  revert E1. apply (foldM_inv (fun _ st => same_runup_tables t0 st)); [| exact HS].
  intros acc0 pr st acc1 st1 Hpr HK E.
  apply bind_inv in E. destruct E as (b & st2 & Eb & E).
  apply bind_inv in E. destruct E as ([] & st3 & Es & E).
  apply ret_inv in E. destruct E as [_ ->].
  inversion Es; subst st3; clear Es.
  change (same_runup_tables t0 st2).
  revert Eb. apply (foldM_inv (fun _ st => same_runup_tables t0 st)); [| exact HK].
  intros b0 fc st0 b1 st4 Hfc HK0 E.
  apply bind_inv in E. destruct E as (tail & st5 & Et & E).
  apply ret_inv in E. destruct E as [_ ->].
  exact (IH _ _ _ _ HK0 Et).
Qed.

(** X16.  [solve_jump_pre] returns the value of the jump phase and leaves
    the three tables of the run-up (its memo, its recorded actions, the log
    of its calls) as they were. *)
Theorem jump_solver_leaves_runup_tables (fuel : nat) (n : Z) (t : Tables) :
  tables_ok t -> 0 <= n -> (Z.to_nat n < fuel)%nat ->
  exists m t',
    solve_jump_pre fuel n t = Some (m, t') /\
    m = jump n /\ same_runup_tables t t' /\ tables_ok t'.
Proof.
  intros Hok Hn Hf.
  destruct (solve_jump_pre_spec fuel n Hn Hf t Hok) as (m & t' & E & -> & Hok').
  exists (jump n), t'. split; [exact E |]. split; [reflexivity |].
  split; [| exact Hok'].
  apply (solve_jump_pre_frame fuel n t t (jump n) t'); [| exact E].
  repeat split.
Qed.

Lemma jump_solver_leaves_runup_tables_witness :
  exists m t',
    solve_jump_pre 6 5 main_tables = Some (m, t') /\
    m = jump 5 /\ same_runup_tables main_tables t' /\ tables_ok t'.
Proof.
  apply (jump_solver_leaves_runup_tables 6 5 main_tables).
  - destruct main_run_spec as (m & _ & _ & H). exact H.
  - lia.
  - simpl. lia.
Defined.

End LongJumpMore.
